(** * ECG biometric encryption: the chaotic cipher core and its attack harness

    A shallow embedding of [src/brute_force_attack_comparison.py] and of the
    cipher methods of [ECGEncryptionGUI] in [src/ecg_gui_all.py].

    Numbers.  The Python code computes on IEEE binary64 values.  Two models
    of them are used.

    In the modules [Np], [BruteForce] and [Gui] a float is an exact rational
    ([Q]): every arithmetic step is the one the source writes, without the
    rounding of the hardware, and without NaN or infinities.  An undefined
    correlation (NumPy's [nan]) is an explicit [None].  The two library
    functions that have no exact rational value, [np.sqrt] and [np.sin], are
    an interface ([Libm]) whose laws are the only facts the proofs use.  A
    [np.uint8] is a [Z] in [0, 256).  The general theorems stated over this
    model are about what rounding does not change: the control flow, the
    bytes, the indices, comparisons with a margin, and the equality of two
    runs of one expression.  None of them says of an arbitrary input that
    a rounded result is the exact one.

    The module [Binary64] is the same code on Rocq's primitive binary64
    floats.  It runs the concrete scenarios with the rounding of the
    hardware, and it shows where a result of exact arithmetic does not
    survive the rounding: the tolerance of the round trip, and the key of a
    constant signal. *)

From Stdlib Require Import ZArith QArith Qround Qabs Qminmax Qreduction.
From Stdlib Require Import List Bool Lia Lqa Permutation Sorted Morphisms.
From Stdlib Require Import PrimFloat SpecFloat FloatOps Uint63.
From Stdlib Require String.
Import ListNotations.
Import String.StringSyntax.
Delimit Scope string_scope with string.

Set Warnings "-inexact-float".

Local Open Scope Q_scope.

(** ** Python calls that may raise *)

Inductive exn : Type :=
| ValueError    (* np.min of an empty array; shapes that do not broadcast *)
| IndexError.   (* fancy index out of bounds *)

Inductive outcome (A : Type) : Type :=
| Returns (a : A)
| Raises (e : exn).
Arguments Returns {A} a.
Arguments Raises {A} e.

Definition bind {A B} (c : outcome A) (k : A -> outcome B) : outcome B :=
  match c with
  | Returns a => k a
  | Raises e => Raises e
  end.

Notation "x <- c ;; k" := (bind c (fun x => k))
  (at level 61, c at next level, right associativity).

(** Python's [a > b] on floats. *)
Definition Qgtb (a b : Q) : bool := negb (Qle_bool a b).

(** ** The NumPy operations the source calls *)

Module Np.

(** [np.sqrt] and [np.sin]: irrational in general, so they are taken as an
    interface.  [sqrt_0] and [sqrt_pos] hold of the correctly rounded
    binary64 square root as of the real one. *)
Class Libm : Type := {
  sqrt : Q -> Q;
  sin : Q -> Q;
  sqrt_proper : Proper (Qeq ==> Qeq) sqrt;
  sqrt_0 : sqrt 0 == 0;
  sqrt_pos : forall x, 0 < x -> 0 < sqrt x
}.

(** [x.astype(np.uint8)] of a float: the fraction is dropped (toward zero).
    For a value in [0, 256) that is all; outside it the C cast is platform
    dependent and is taken here as the wrap-around of the integer part. *)
Definition Qtruncate (q : Q) : Z := Z.quot (Qnum q) (Z.pos (Qden q)).

Definition astype_uint8 (q : Q) : Z := (Qtruncate q) mod 256.

(** [np.floor(x)], a float with an integer value. *)
Definition floor (q : Q) : Q := inject_Z (Qfloor q).

(** [np.min], [np.max]: [ValueError] on an empty array. *)
Definition min (a : list Q) : outcome Q :=
  match a with
  | [] => Raises ValueError
  | x :: xs => Returns (fold_left Qmin xs x)
  end.

Definition max (a : list Q) : outcome Q :=
  match a with
  | [] => Raises ValueError
  | x :: xs => Returns (fold_left Qmax xs x)
  end.

Definition sum (a : list Q) : Q := fold_left Qplus a 0.

Definition len {A} (a : list A) : Q := inject_Z (Z.of_nat (length a)).

(** [np.mean]: the sum over the count.  Of an empty array NumPy returns
    [nan] (with a warning); the quotient by zero is 0 here, and no statement
    below is about the mean of an empty array.  The exact sum does not
    depend on the order of the samples and the exact mean of a constant
    array is the constant; neither holds of the rounded sum, see
    [Binary64.mean]. *)
Definition mean (a : list Q) : Q := sum a / len a.

(** [np.std]: the square root of the mean squared deviation (ddof = 0).
    Exactly 0 on a constant array; the rounded one need not be, see
    [Binary64.std]. *)
Definition std `{Libm} (a : list Q) : Q :=
  let m := mean a in
  sqrt (mean (map (fun x => (x - m) * (x - m)) a)).

(** Python's [a % b] on floats: the result has the sign of [b]. *)
Definition pymod (a b : Q) : Q := a - b * inject_Z (Qfloor (a / b)).

(** [np.argsort]: the indices that sort [a].  NumPy leaves the order of
    equal keys open; this one keeps equal keys in index order.  The
    theorems below use only that the result is a permutation of the indices
    (and, on distinct keys, the unique sorting one). *)
Section Argsort.
Context {A : Type} (leb : A -> A -> bool) (d : A).

Fixpoint insert_index (a : list A) (i : nat) (l : list nat) : list nat :=
  match l with
  | [] => [i]
  | j :: l' =>
      if leb (nth i a d) (nth j a d) then i :: l
      else j :: insert_index a i l'
  end.

Definition argsort_by (a : list A) : list nat :=
  fold_right (insert_index a) [] (seq 0 (length a)).
End Argsort.

Definition argsort (a : list Q) : list nat := argsort_by Qle_bool 0 a.

Definition argsort_index (p : list nat) : list nat := argsort_by Nat.leb 0%nat p.

(** Fancy indexing [a[idx]]: [IndexError] when an index is out of bounds. *)
Fixpoint take {A} (a : list A) (idx : list nat) : outcome (list A) :=
  match idx with
  | [] => Returns []
  | i :: idx' =>
      match nth_error a i with
      | Some x => rest <- take a idx' ;; Returns (x :: rest)
      | None => Raises IndexError
      end
  end.

(** Element-wise binary operation with NumPy's broadcasting of a
    one-element operand; other length mismatches raise [ValueError]. *)
Fixpoint zip_with {A B C} (f : A -> B -> C) (a : list A) (b : list B) : list C :=
  match a, b with
  | x :: a', y :: b' => f x y :: zip_with f a' b'
  | _, _ => []
  end.

Definition broadcast {A C} (f : A -> A -> C) (a b : list A) : outcome (list C) :=
  if Nat.eqb (length a) (length b) then Returns (zip_with f a b)
  else match a, b with
       | [x], _ => Returns (map (f x) b)
       | _, [y] => Returns (map (fun x => f x y) a)
       | _, _ => Raises ValueError
       end.

Definition bitwise_xor (a b : list Z) : outcome (list Z) := broadcast Z.lxor a b.

(** [np.linspace(start, stop, num)]: [num] evenly spaced samples, both ends
    included. *)
Definition linspace (start stop : Q) (num : nat) : list Q :=
  let step := (stop - start) / inject_Z (Z.of_nat (num - 1)) in
  map (fun i => start + inject_Z (Z.of_nat i) * step) (seq 0 num).

(** [np.clip(x, -1, 1)]. *)
Definition clip1 (x : Q) : Q := Qmax (-1) (Qmin x 1).

(** [np.corrcoef(x, y)[0, 1]]: the Pearson correlation, clipped to
    [-1, 1].  Arrays of different lengths cannot be stacked ([ValueError]).
    With fewer than two samples, or a zero variance on either side, NumPy
    divides zero by zero and returns [nan] (with a warning, no exception):
    [Returns None].  The variance tested here is the exact one: on binary64
    the computed variance of a constant array need not be zero, since its
    computed mean can differ from the constant. *)
Definition cov (x y : list Q) : Q :=
  let mx := mean x in
  let my := mean y in
  sum (zip_with (fun a b => (a - mx) * (b - my)) x y) / (len x - 1).

Definition corrcoef `{Libm} (x y : list Q) : outcome (option Q) :=
  if negb (Nat.eqb (length x) (length y)) then Raises ValueError
  else if Nat.leb (length x) 1 then Returns None
  else
    let cxx := cov x x in
    let cyy := cov y y in
    let cxy := cov x y in
    if Qeq_bool cxx 0 || Qeq_bool cyy 0 then Returns None
    else Returns (Some (clip1 (cxy / sqrt cxx / sqrt cyy))).

End Np.

(** ** src/brute_force_attack_comparison.py *)

Module BruteForce.

(** [logistic_map(x0, r, n)]: the [n] iterates after [x0]. *)
Fixpoint logistic_map (x0 r : Q) (n : nat) : list Q :=
  match n with
  | O => []
  | S n' => let x := r * x0 * (1 - x0) in x :: logistic_map x r n'
  end.

(** [extract_biometric_key(ecg_signal)]. *)
Definition extract_biometric_key `{Np.Libm} (ecg_signal : list Q) : Q * Q :=
  let mean_val := Np.mean ecg_signal in
  let std_val := Np.std ecg_signal in
  let r := 3.6 + Np.pymod std_val 0.4 in
  let x0 := 0.1 + Np.pymod mean_val 0.8 in
  (r, x0).

(** The expression bound to [scaled_signal] in the three encrypt functions:
    [((signal - signal_min) / (signal_max - signal_min) * 255).astype(np.uint8)
     if signal_max > signal_min else np.zeros_like(signal, dtype=np.uint8)].
    The quotient and the product are exact before the fraction is dropped;
    with their roundings the byte can be one less, see
    [Binary64.scaled_signal]. *)
Definition scaled_signal (signal : list Q) (signal_min signal_max : Q) : list Z :=
  if Qgtb signal_max signal_min
  then map (fun s => Np.astype_uint8
                       ((s - signal_min) / (signal_max - signal_min) * 255)) signal
  else map (fun _ => 0%Z) signal.

(** [np.floor(chaotic_seq * 255).astype(np.uint8)]. *)
Definition xor_mask (chaotic_seq : list Q) : list Z :=
  map (fun c => Np.astype_uint8 (Np.floor (c * 255))) chaotic_seq.

(** [(decrypted_scaled.astype(float) / 255.0) * (signal_max - signal_min)
     + signal_min], each step exact; with its three roundings it is
    [Binary64.denormalize]. *)
Definition denormalize (decrypted_scaled : list Z) (signal_range : Q * Q) : list Q :=
  let '(signal_min, signal_max) := signal_range in
  map (fun b => (inject_Z b / 255) * (signal_max - signal_min) + signal_min)
      decrypted_scaled.

Definition classical_chaotic_encrypt (signal : list Q) (r x0 : Q)
  : outcome (list Z * (Q * Q)) :=
  let n := length signal in
  let chaotic_seq := logistic_map x0 r n in
  signal_min <- Np.min signal ;;
  signal_max <- Np.max signal ;;
  let scaled := scaled_signal signal signal_min signal_max in
  encrypted <- Np.bitwise_xor scaled (xor_mask chaotic_seq) ;;
  Returns (encrypted, (signal_min, signal_max)).

Definition classical_chaotic_decrypt (encrypted_signal : list Z) (r x0 : Q)
    (signal_range : Q * Q) : outcome (list Q) :=
  let n := length encrypted_signal in
  let chaotic_seq := logistic_map x0 r n in
  decrypted_scaled <- Np.bitwise_xor encrypted_signal (xor_mask chaotic_seq) ;;
  Returns (denormalize decrypted_scaled signal_range).

(** The tuple [biometric_encrypt] and [ml_enhanced_encrypt] return:
    [(encrypted, permutation, xor_mask, (signal_min, signal_max), r, x0)]. *)
Definition encrypt_tuple : Type :=
  (list Z * list nat * list Z * (Q * Q) * Q * Q)%type.

(** The body both functions share once [r] and [x0] are fixed. *)
Definition permute_xor_encrypt (signal : list Q) (r x0 : Q) : outcome encrypt_tuple :=
  let n := length signal in
  let chaotic_seq := logistic_map x0 r n in
  signal_min <- Np.min signal ;;
  signal_max <- Np.max signal ;;
  let scaled := scaled_signal signal signal_min signal_max in
  let mask := xor_mask chaotic_seq in
  let permutation := Np.argsort chaotic_seq in
  permuted_signal <- Np.take scaled permutation ;;
  encrypted <- Np.bitwise_xor permuted_signal mask ;;
  Returns (encrypted, permutation, mask, (signal_min, signal_max), r, x0).

(** [biometric_encrypt(signal, r=None, x0=None)]. *)
Definition biometric_encrypt `{Np.Libm} (signal : list Q) (r x0 : option Q)
  : outcome encrypt_tuple :=
  let '(r, x0) :=
    match r, x0 with
    | Some r, Some x0 => (r, x0)
    | _, _ => extract_biometric_key signal
    end in
  permute_xor_encrypt signal r x0.

Definition biometric_decrypt (encrypted_signal : list Z) (permutation : list nat)
    (xor_mask : list Z) (signal_range : Q * Q) : outcome (list Q) :=
  xor_reversed <- Np.bitwise_xor encrypted_signal xor_mask ;;
  let inverse_perm := Np.argsort_index permutation in
  decrypted_scaled <- Np.take xor_reversed inverse_perm ;;
  Returns (denormalize decrypted_scaled signal_range).

(** [predict_key(model, scaler, imputer, signal)]: the trained scikit-learn
    pipeline is the function it computes, from a signal to a key; it raises
    on a signal of another length than the training data. *)
Definition predictor : Type := list Q -> outcome (Q * Q).

Definition predict_key (model : predictor) (signal : list Q) : outcome (Q * Q) :=
  model signal.

(** [ml_enhanced_encrypt(signal, model, scaler, imputer, r=None, x0=None)]. *)
Definition ml_enhanced_encrypt (signal : list Q) (model : predictor)
    (r x0 : option Q) : outcome encrypt_tuple :=
  key <- match r, x0 with
         | Some r, Some x0 => Returns (r, x0)
         | _, _ => predict_key model signal
         end ;;
  permute_xor_encrypt signal (fst key) (snd key).

(** *** The brute-force attacks

    The three attack functions are one loop over a grid, with their own
    grid, threshold and trial.  One trial is the body of the [try]: it
    raises (any exception: the bare [except] catches it), or it returns a
    correlation, [None] when the correlation is [nan]. *)

Record search_state : Type := {
  success : bool;
  attempts : Z;
  best_match : Q;
  best_params : option (Q * Q)
}.

Definition initial_state : search_state :=
  {| success := false; attempts := 0; best_match := 0; best_params := None |}.

Definition count_attempt (st : search_state) : search_state :=
  {| success := success st; attempts := attempts st + 1;
     best_match := best_match st; best_params := best_params st |}.

(** [if abs(correlation) > best_match: best_match = ...; best_params = ...].
    A comparison with [nan] is false. *)
Definition update_best (st : search_state) (r x0 : Q) (correlation : option Q)
  : search_state :=
  match correlation with
  | Some c =>
      if Qgtb (Qabs c) (best_match st)
      then {| success := success st; attempts := attempts st;
              best_match := Qabs c; best_params := Some (r, x0) |}
      else st
  | None => st
  end.

Definition set_success (st : search_state) : search_state :=
  {| success := true; attempts := attempts st;
     best_match := best_match st; best_params := best_params st |}.

(** [abs(correlation) > threshold]. *)
Definition exceeds (correlation : option Q) (threshold : Q) : bool :=
  match correlation with
  | Some c => Qgtb (Qabs c) threshold
  | None => false
  end.

Section Search.
Variable trial : Q -> Q -> outcome (option Q).
Variable threshold : Q.
Variable max_attempts : Z.

(** [for x0 in x0_range: ...] for one [r]. *)
Fixpoint inner_loop (r : Q) (x0_range : list Q) (st : search_state)
  : search_state :=
  match x0_range with
  | [] => st
  | x0 :: rest =>
      let st := count_attempt st in
      match trial r x0 with
      | Raises _ => inner_loop r rest st               (* except: continue *)
      | Returns correlation =>
          let st := update_best st r x0 correlation in
          if exceeds correlation threshold then set_success st   (* break *)
          else if (attempts st >=? max_attempts)%Z then st       (* break *)
          else inner_loop r rest st
      end
  end.

(** [for r in r_range: ...]. *)
Fixpoint outer_loop (r_range x0_range : list Q) (st : search_state)
  : search_state :=
  match r_range with
  | [] => st
  | r :: rest =>
      let st := inner_loop r x0_range st in
      if success st || (attempts st >=? max_attempts)%Z then st   (* break *)
      else outer_loop rest x0_range st
  end.
End Search.

(** The dictionary an attack returns. *)
Record attack_result : Type := {
  res_success : bool;
  res_attempts : Z;
  res_best_match : Q;
  res_best_params : option (Q * Q);
  res_success_rate : Q
}.

Definition grid_size (r_range x0_range : list Q) : Z :=
  (Z.of_nat (length r_range) * Z.of_nat (length x0_range))%Z.

Definition make_result (r_range x0_range : list Q) (st : search_state)
  : attack_result :=
  {| res_success := success st;
     res_attempts := attempts st;
     res_best_match := best_match st;
     res_best_params := best_params st;
     res_success_rate :=
       if (attempts st <? grid_size r_range x0_range)%Z
       then inject_Z (attempts st) / inject_Z (grid_size r_range x0_range)
       else 1 |}.

Definition attack (trial : Q -> Q -> outcome (option Q)) (threshold : Q)
    (r_range x0_range : list Q) (max_attempts : Z) : attack_result :=
  make_result r_range x0_range
    (outer_loop trial threshold max_attempts r_range x0_range initial_state).

(** The [try] body of [brute_force_attack_classical]. *)
Definition classical_trial `{Np.Libm} (encrypted_signal : list Z)
    (original_signal : list Q) (signal_range : Q * Q) (r x0 : Q)
  : outcome (option Q) :=
  decrypted <- classical_chaotic_decrypt encrypted_signal r x0 signal_range ;;
  Np.corrcoef original_signal decrypted.

(** The [try] body of [brute_force_attack_biometric] and of
    [brute_force_attack_ml_enhanced]. *)
Definition permutation_trial `{Np.Libm} (encrypted_signal : list Z)
    (original_signal : list Q) (signal_range : Q * Q) (r x0 : Q)
  : outcome (option Q) :=
  let n := length encrypted_signal in
  let chaotic_seq := logistic_map x0 r n in
  let permutation := Np.argsort chaotic_seq in
  let mask := xor_mask chaotic_seq in
  xor_reversed <- Np.bitwise_xor encrypted_signal mask ;;
  let inverse_perm := Np.argsort_index permutation in
  decrypted_scaled <- Np.take xor_reversed inverse_perm ;;
  let decrypted := denormalize decrypted_scaled signal_range in
  Np.corrcoef original_signal decrypted.

Definition brute_force_attack_classical `{Np.Libm} (encrypted_signal : list Z)
    (original_signal : list Q) (signal_range : Q * Q) (max_attempts : Z)
  : attack_result :=
  let r_range := Np.linspace 3.5 4.0 20 in
  let x0_range := Np.linspace 0.1 0.9 10 in
  attack (classical_trial encrypted_signal original_signal signal_range)
         0.7 r_range x0_range max_attempts.

Definition brute_force_attack_biometric `{Np.Libm} (encrypted_signal : list Z)
    (original_signal : list Q) (signal_range : Q * Q) (max_attempts : Z)
  : attack_result :=
  let r_range := Np.linspace 3.5 4.0 25 in
  let x0_range := Np.linspace 0.1 0.9 16 in
  attack (permutation_trial encrypted_signal original_signal signal_range)
         0.8 r_range x0_range max_attempts.

(** The [model], [scaler] and [imputer] arguments are not used by the body. *)
Definition brute_force_attack_ml_enhanced `{Np.Libm} (encrypted_signal : list Z)
    (original_signal : list Q) (signal_range : Q * Q) (model : predictor)
    (max_attempts : Z) : attack_result :=
  let r_range := Np.linspace 3.5 4.0 30 in
  let x0_range := Np.linspace 0.1 0.9 20 in
  attack (permutation_trial encrypted_signal original_signal signal_range)
         0.85 r_range x0_range max_attempts.

(** The summary the script prints for one method, from the column of the
    success rates of the batch:
    [success_rate = results_df[...].mean()],
    [security_score = 1 - success_rate] and
    ['VULNERABLE' if success_rate > 0.1 else 'SECURE']. *)
Definition summary (success_rates : list Q) : Q * Q * String.string :=
  let success_rate := Np.mean success_rates in
  let security_score := 1 - success_rate in
  (success_rate, security_score,
   if Qgtb success_rate 0.1 then "VULNERABLE"%string else "SECURE"%string).

End BruteForce.

(** ** src/ecg_gui_all.py: the cipher methods of [ECGEncryptionGUI] *)

Module Gui.

(** [sequence[i] = x]. *)
Fixpoint set_item {A} (a : list A) (i : nat) (v : A) : list A :=
  match a, i with
  | [], _ => []
  | _ :: a', O => v :: a'
  | y :: a', S i' => y :: set_item a' i' v
  end.

(** [logistic_map(self, x0, r, n)]: fills a zero array in place. *)
Definition logistic_map (x0 r : Q) (n : nat) : list Q :=
  snd (fold_left
         (fun (st : Q * list Q) (i : nat) =>
            let '(x, sequence) := st in
            let x := r * x * (1 - x) in
            (x, set_item sequence i x))
         (seq 0 n) (x0, repeat 0 n)).

(** [np.random.random(n)] reads and advances the process-wide generator.
    Its state is the stream of the draws to come. *)
Definition rng_state : Type := nat -> Q.

Definition random (n : nat) (g : rng_state) : list Q * rng_state :=
  (map g (seq 0 n), fun i => g (i + n)%nat).

(** [np.arange(n)] as floats. *)
Definition arange (n : nat) : list Q :=
  map (fun i => inject_Z (Z.of_nat i)) (seq 0 n).

(** [a + b], [a - b] and [a * b] on arrays, each element exact: [(a + k) - k]
    is [a] here, and [a] up to two roundings on binary64. *)
Definition add (a b : list Q) : outcome (list Q) := Np.broadcast Qplus a b.
Definition sub (a b : list Q) : outcome (list Q) := Np.broadcast Qminus a b.
Definition mul (a b : list Q) : outcome (list Q) := Np.broadcast Qmult a b.

Definition chaotic_encrypt (signal : list Q) (r x0 : Q)
  : outcome (list Q * list nat) :=
  let n := length signal in
  let chaotic_seq := logistic_map x0 r n in
  let perm_indices := Np.argsort chaotic_seq in
  permuted_signal <- Np.take signal perm_indices ;;
  encrypted <- add permuted_signal chaotic_seq ;;
  Returns (encrypted, perm_indices).

Definition chaotic_decrypt (encrypted_signal : list Q) (r x0 : Q)
    (perm_indices : list nat) : outcome (list Q) :=
  let n := length encrypted_signal in
  let chaotic_seq := logistic_map x0 r n in
  decrypted <- sub encrypted_signal chaotic_seq ;;
  let inverse_perm := Np.argsort_index perm_indices in
  Np.take decrypted inverse_perm.

Definition biometric_encrypt (signal : list Q) (r x0 : Q) :=
  chaotic_encrypt signal r x0.

Definition biometric_decrypt (encrypted_signal : list Q) (r x0 : Q)
    (perm_indices : list nat) :=
  chaotic_decrypt encrypted_signal r x0 perm_indices.

(** [chaotic_seq * (1 + alpha * np.sin(eta * np.arange(n)))]. *)
Definition adaptive_seq `{Np.Libm} (chaotic_seq : list Q) (alpha eta : Q) (n : nat)
  : outcome (list Q) :=
  mul chaotic_seq (map (fun i => 1 + alpha * Np.sin (eta * i)) (arange n)).

(** [ml_enhanced_encrypt(self, signal, r, x0, alpha, eta)], with the
    generator state it reads and leaves behind. *)
Definition ml_enhanced_encrypt `{Np.Libm} (signal : list Q) (r x0 alpha eta : Q)
    (g : rng_state) : outcome (list Q * list nat) * rng_state :=
  let n := length signal in
  let chaotic_seq := logistic_map x0 r n in
  let '(draws, g') := random n g in
  (ml_weights <- add (map (Qmult alpha) chaotic_seq) (map (Qmult eta) draws) ;;
   let perm_indices := Np.argsort ml_weights in
   permuted_signal <- Np.take signal perm_indices ;;
   adaptive <- adaptive_seq chaotic_seq alpha eta n ;;
   encrypted <- add permuted_signal adaptive ;;
   Returns (encrypted, perm_indices),
   g').

Definition ml_enhanced_decrypt `{Np.Libm} (encrypted_signal : list Q)
    (r x0 alpha eta : Q) (perm_indices : list nat) : outcome (list Q) :=
  let n := length encrypted_signal in
  let chaotic_seq := logistic_map x0 r n in
  adaptive <- adaptive_seq chaotic_seq alpha eta n ;;
  decrypted <- sub encrypted_signal adaptive ;;
  let inverse_perm := Np.argsort_index perm_indices in
  Np.take decrypted inverse_perm.

(** [find_peaks(self, signal, threshold=0.5)]: the indices [i] of
    [range(1, len(signal) - 1)] whose sample is above both neighbours and
    above the threshold, in the order of the loop. *)
Definition find_peaks (signal : list Q) (threshold : Q) : list nat :=
  filter (fun i =>
            Qgtb (nth i signal 0) (nth (i - 1) signal 0)
            && Qgtb (nth i signal 0) (nth (i + 1) signal 0)
            && Qgtb (nth i signal 0) threshold)
         (seq 1 (length signal - 2)).

(** [features['peak_count']] of [extract_signal_features]. *)
Definition peak_count (signal : list Q) : nat :=
  length (find_peaks signal 0.5).

End Gui.

(** ** The same arithmetic on binary64 floats *)

Module Binary64.

(** The integer part of a finite float, the fraction dropped (toward zero);
    [exact] tells whether there was no fraction. *)
Definition integer_part (f : float) : bool * Z * bool :=
  match Prim2SF f with
  | S754_finite s m e =>
      if (0 <=? e)%Z then (s, (Z.pos m * 2 ^ e)%Z, true)
      else
        let q := Z.shiftr (Z.pos m) (- e) in
        (s, q, Z.eqb (Z.shiftl q (- e)) (Z.pos m))
  | _ => (false, 0%Z, true)
  end.

(** [x.astype(np.uint8)]. *)
Definition astype_uint8 (f : float) : Z :=
  let '(s, q, _) := integer_part f in
  (if s then - q else q) mod 256.

(** [np.floor(x).astype(np.uint8)]. *)
Definition floor_uint8 (f : float) : Z :=
  let '(s, q, exact) := integer_part f in
  (if s then (if exact then - q else - q - 1) else q) mod 256.

Fixpoint logistic_map (x0 r : float) (n : nat) : list float :=
  match n with
  | O => []
  | S n' => let x := (r * x0 * (1 - x0))%float in x :: logistic_map x r n'
  end.

Definition scaled_signal (signal : list float) (signal_min signal_max : float)
  : list Z :=
  if PrimFloat.ltb signal_min signal_max
  then map (fun s => astype_uint8
                       ((s - signal_min) / (signal_max - signal_min) * 255)%float)
           signal
  else map (fun _ => 0%Z) signal.

Definition xor_mask (chaotic_seq : list float) : list Z :=
  map (fun c => floor_uint8 (c * 255)%float) chaotic_seq.

(** The value of a finite float, as a rational. *)
Definition to_Q (f : float) : Q :=
  match Prim2SF f with
  | S754_finite s m e =>
      let v := inject_Z (Z.pos m) * Qpower 2 e in if s then - v else v
  | _ => 0
  end.

(** [b.astype(float)] of a byte. *)
Definition of_uint8 (b : Z) : float := of_uint63 (Uint63.of_Z b).

(** [np.min], [np.max] of an array without [nan]. *)
Definition min (a : list float) : outcome float :=
  match a with
  | [] => Raises ValueError
  | x :: xs =>
      Returns (fold_left (fun m s => if PrimFloat.ltb s m then s else m) xs x)
  end.

Definition max (a : list float) : outcome float :=
  match a with
  | [] => Raises ValueError
  | x :: xs =>
      Returns (fold_left (fun m s => if PrimFloat.ltb m s then s else m) xs x)
  end.

Definition denormalize (decrypted_scaled : list Z) (signal_range : float * float)
  : list float :=
  let '(signal_min, signal_max) := signal_range in
  map (fun b => (of_uint8 b / 255 * (signal_max - signal_min) + signal_min)%float)
      decrypted_scaled.

Definition classical_chaotic_encrypt (signal : list float) (r x0 : float)
  : outcome (list Z * (float * float)) :=
  let n := length signal in
  let chaotic_seq := logistic_map x0 r n in
  signal_min <- min signal ;;
  signal_max <- max signal ;;
  let scaled := scaled_signal signal signal_min signal_max in
  encrypted <- Np.bitwise_xor scaled (xor_mask chaotic_seq) ;;
  Returns (encrypted, (signal_min, signal_max)).

Definition classical_chaotic_decrypt (encrypted_signal : list Z) (r x0 : float)
    (signal_range : float * float) : outcome (list float) :=
  let n := length encrypted_signal in
  let chaotic_seq := logistic_map x0 r n in
  decrypted_scaled <- Np.bitwise_xor encrypted_signal (xor_mask chaotic_seq) ;;
  Returns (denormalize decrypted_scaled signal_range).

Definition argsort (a : list float) : list nat :=
  Np.argsort_by PrimFloat.leb 0%float a.

(** [biometric_encrypt] with [r] and [x0] given. *)
Definition permute_xor_encrypt (signal : list float) (r x0 : float)
  : outcome (list Z * list nat * list Z * (float * float) * float * float) :=
  let n := length signal in
  let chaotic_seq := logistic_map x0 r n in
  signal_min <- min signal ;;
  signal_max <- max signal ;;
  let scaled := scaled_signal signal signal_min signal_max in
  let mask := xor_mask chaotic_seq in
  let permutation := argsort chaotic_seq in
  permuted_signal <- Np.take scaled permutation ;;
  encrypted <- Np.bitwise_xor permuted_signal mask ;;
  Returns (encrypted, permutation, mask, (signal_min, signal_max), r, x0).

Definition biometric_decrypt (encrypted_signal : list Z) (permutation : list nat)
    (xor_mask : list Z) (signal_range : float * float) : outcome (list float) :=
  xor_reversed <- Np.bitwise_xor encrypted_signal xor_mask ;;
  let inverse_perm := Np.argsort_index permutation in
  decrypted_scaled <- Np.take xor_reversed inverse_perm ;;
  Returns (denormalize decrypted_scaled signal_range).

(** [np.sum] adds an array of fewer than eight elements from left to right,
    starting from 0 (longer arrays are added pairwise, in blocks); the runs
    below are on three samples. *)
Definition sum (a : list float) : float := fold_left PrimFloat.add a 0%float.

Definition len {A} (a : list A) : float :=
  of_uint63 (Uint63.of_Z (Z.of_nat (length a))).

Definition mean (a : list float) : float := (sum a / len a)%float.

Definition std (a : list float) : float :=
  let m := mean a in
  PrimFloat.sqrt (mean (map (fun x => ((x - m) * (x - m))%float) a)).

(** C's [fmod(a, b)]: the remainder of the division toward zero, with the
    sign of [a]; it is computed without rounding. *)
Definition fmod (a b : float) : float :=
  match Prim2SF a, Prim2SF b with
  | S754_finite sa ma ea, S754_finite sb mb eb =>
      let e := Z.min ea eb in
      let A := (Z.pos ma * 2 ^ (ea - e))%Z in
      let B := (Z.pos mb * 2 ^ (eb - e))%Z in
      let R := Z.rem A B in
      SF2Prim (binary_normalize prec emax (if sa then - R else R) e sa)
  | S754_zero _, S754_finite _ _ _ => a
  | S754_zero _, S754_infinity _ => a
  | S754_finite _ _ _, S754_infinity _ => a
  | _, _ => nan
  end.

(** Python's [a % b] on floats: [fmod], moved by [b] (a rounded addition)
    when its sign is not the one of [b]. *)
Definition pymod (a b : float) : float :=
  let m := fmod a b in
  if PrimFloat.eqb m 0 then (if PrimFloat.ltb b 0 then (- 0)%float else 0%float)
  else if Bool.eqb (PrimFloat.ltb b 0) (PrimFloat.ltb m 0) then m
       else (m + b)%float.

Definition extract_biometric_key (ecg_signal : list float) : float * float :=
  let mean_val := mean ecg_signal in
  let std_val := std ecg_signal in
  let r := (3.6 + pymod std_val 0.4)%float in
  let x0 := (0.1 + pymod mean_val 0.8)%float in
  (r, x0).

End Binary64.

(** ** A computable instance of the numeric interface

    A square root by integer square root on the grid of step 2^-60 (the
    argument is rounded up first, so that the root of a positive number is
    positive), and a sine by its cubic Taylor polynomial.  It runs the examples below; no general theorem depends on
    it. *)

Definition approx_sqrt (x : Q) : Q :=
  if Qle_bool x 0 then 0
  else inject_Z (Z.sqrt (Qceiling (x * inject_Z (2 ^ 120)))) / inject_Z (2 ^ 60).

Definition approx_sin (x : Q) : Q := x - x * x * x / 6.

Lemma approx_sqrt_proper : Proper (Qeq ==> Qeq) approx_sqrt.
Proof.
  intros x y E. unfold approx_sqrt.
  rewrite <- E at 1.
  destruct (Qle_bool x 0); [reflexivity|].
  assert (Qceiling (x * inject_Z (2 ^ 120)) = Qceiling (y * inject_Z (2 ^ 120))) as ->.
  { apply Qceiling_comp. rewrite E. reflexivity. }
  reflexivity.
Qed.

Lemma approx_sqrt_pos (x : Q) : 0 < x -> 0 < approx_sqrt x.
Proof.
  intros Hx. unfold approx_sqrt.
  destruct (Qle_bool x 0) eqn:E.
  - apply Qle_bool_iff in E. lra.
  - assert (1 <= Qceiling (x * inject_Z (2 ^ 120)))%Z as Hc.
    { assert (0 < Qceiling (x * inject_Z (2 ^ 120)))%Z; [|lia].
      rewrite Zlt_Qlt.
      eapply Qlt_le_trans; [|apply Qle_ceiling].
      apply Qmult_lt_0_compat; [exact Hx|reflexivity]. }
    assert (1 <= Z.sqrt (Qceiling (x * inject_Z (2 ^ 120))))%Z as Hs.
    { change 1%Z with (Z.sqrt 1). apply Z.sqrt_le_mono. exact Hc. }
    apply Qlt_shift_div_l; [reflexivity|].
    rewrite Qmult_0_l. change 0 with (inject_Z 0). rewrite <- Zlt_Qlt. lia.
Qed.

#[export] Instance approx_libm : Np.Libm := {|
  Np.sqrt := approx_sqrt;
  Np.sin := approx_sin;
  Np.sqrt_proper := approx_sqrt_proper;
  Np.sqrt_0 := Qeq_refl 0;
  Np.sqrt_pos := approx_sqrt_pos
|}.

Import BruteForce.

(** * The vocabulary of the claims *)

(** ** Keys, bytes and tolerances *)

(** The key domain of the specification: [r] in (0, 4], [x0] in (0, 1). *)
Definition key_domain (r x0 : Q) : Prop := 0 < r <= 4 /\ 0 < x0 < 1.

Definition uint8 (b : Z) : Prop := (0 <= b < 256)%Z.

(** Samples of moderate size.  On binary64 the range [max - min] of the
    signal and the sum of the squared deviations that [np.std] forms are
    then finite, so that the de-normalised samples, the mean and the
    standard deviation are numbers; exact arithmetic has no overflow, and a
    statement carries this bound to hold of the binary64 run as well. *)
Definition moderate (signal : list Q) : Prop :=
  Forall (fun s => Qabs s <= 1e100) signal.

(** A sample [s] that comes back as [d], with a value of the keystream [k]
    added to it and taken off again: [s] itself in exact arithmetic, and
    [s] up to two roundings on binary64. *)
Definition masked_unmasked (k : list Q) (d s : Q) : Prop :=
  exists c, In c k /\ d = s + c - c.

(** ** What an encrypt call returns *)

(** The last two components of the tuple [biometric_encrypt] and
    [ml_enhanced_encrypt] return, and the third one. *)
Definition returned_key (out : encrypt_tuple) : Q * Q :=
  let '(_, _, _, _, r, x0) := out in (r, x0).

Definition returned_mask (out : encrypt_tuple) : list Z :=
  let '(_, _, mask, _, _, _) := out in mask.

(** [biometric_decrypt] applied to the components of such a tuple: it takes
    no key. *)
Definition decrypt_returned (out : encrypt_tuple) : outcome (list Q) :=
  let '(encrypted, permutation, mask, range, _, _) := out in
  biometric_decrypt encrypted permutation mask range.

(** The permutation a GUI encrypt call returned. *)
Definition returned_permutation (o : outcome (list Q * list nat))
  : option (list nat) :=
  match o with
  | Returns (_, perm_indices) => Some perm_indices
  | Raises _ => None
  end.

(** Two states of NumPy's generator: all draws 0, and the same with the
    fifth draw 0.9. *)
Definition draws_zero : Gui.rng_state := fun _ => 0.

Definition draws_fifth : Gui.rng_state :=
  fun i => if Nat.eqb i 4 then 0.9 else 0.

(** ** The trials of a search

    The grid is visited row by row; [done] is the list of the grid points
    tried so far, in order. *)

Section Tally.
Variable trial : Q -> Q -> outcome (option Q).
Variable threshold : Q.

Definition corr_at (p : Q * Q) : outcome (option Q) := trial (fst p) (snd p).

(** The trial at [p] did not reach the threshold (it raised, gave [nan], or
    a correlation of absolute value at most the threshold). *)
Definition quiet (p : Q * Q) : Prop :=
  match corr_at p with
  | Returns c => exceeds c threshold = false
  | Raises _ => True
  end.

(** What the counters say about the trials done. *)
Record tally (done : list (Q * Q)) (st : search_state) : Prop := {
  tally_attempts : attempts st = Z.of_nat (length done);
  tally_upper : forall p c, In p done -> corr_at p = Returns (Some c) ->
                            Qabs c <= best_match st;
  tally_best : (best_params st = None /\ best_match st = 0) \/
               (exists p c, In p done /\ best_params st = Some p /\
                            corr_at p = Returns (Some c) /\
                            best_match st = Qabs c);
  tally_quiet : success st = false -> Forall quiet done;
  tally_success : success st = true ->
                  exists d p c, done = d ++ [p] /\ Forall quiet d /\
                                corr_at p = Returns (Some c) /\
                                threshold < Qabs c
}.
End Tally.

(** A trial without a correlation: NumPy returned [nan], or the [try] body
    raised and the bare [except] caught it. *)
Definition undefined (o : outcome (option Q)) : Prop :=
  o = Returns None \/ exists e, o = Raises e.

(** The three attacks side by side: what each returns, its trial, its
    threshold and its grid in the order it is visited. *)
Definition attack_run : Type :=
  (attack_result * (Q -> Q -> outcome (option Q)) * Q * list (Q * Q))%type.

Definition attack_runs `{Np.Libm} (encrypted_signal : list Z)
    (original_signal : list Q) (signal_range : Q * Q) (model : predictor)
    (max_attempts : Z) : list attack_run :=
  [ (brute_force_attack_classical encrypted_signal original_signal
                                  signal_range max_attempts,
     classical_trial encrypted_signal original_signal signal_range,
     0.7,
     list_prod (Np.linspace 3.5 4.0 20) (Np.linspace 0.1 0.9 10));
    (brute_force_attack_biometric encrypted_signal original_signal
                                  signal_range max_attempts,
     permutation_trial encrypted_signal original_signal signal_range,
     0.8,
     list_prod (Np.linspace 3.5 4.0 25) (Np.linspace 0.1 0.9 16));
    (brute_force_attack_ml_enhanced encrypted_signal original_signal
                                    signal_range model max_attempts,
     permutation_trial encrypted_signal original_signal signal_range,
     0.85,
     list_prod (Np.linspace 3.5 4.0 30) (Np.linspace 0.1 0.9 20)) ].

(** The trials tried by a run: the first [attempts] points of the grid. *)
Definition tried (run : attack_run) : list (Q * Q) :=
  let '(res, _, _, grid) := run in firstn (Z.to_nat (res_attempts res)) grid.

(** What a returned dictionary says about the search that produced it. *)
Definition search_report (max_attempts : Z) (run : attack_run) : Prop :=
  let '(res, trial, threshold, grid) := run in
  exists st rest,
    res_success res = success st /\
    res_attempts res = attempts st /\
    res_best_match res = best_match st /\
    res_best_params res = best_params st /\
    res_success_rate res
    = (if (attempts st <? Z.of_nat (length grid))%Z
       then inject_Z (attempts st) / inject_Z (Z.of_nat (length grid))
       else 1) /\
    grid = tried run ++ rest /\
    tally trial threshold (tried run) st /\
    (rest = [] \/ success st = true \/ (max_attempts <= attempts st)%Z).

(** What the returned [attempts] and [success_rate] say. *)
Definition rate_report (run : attack_run) : Prop :=
  let '(res, trial, threshold, grid) := run in
  (0 <= res_attempts res <= Z.of_nat (length grid))%Z /\
  res_attempts res = Z.of_nat (length (tried run)) /\
  res_success_rate res
  == Qmin (inject_Z (res_attempts res) / inject_Z (Z.of_nat (length grid))) 1 /\
  (res_success_rate res == 1 ->
   tried run = grid /\ Forall (quiet trial threshold) (removelast grid)).

(** What the returned [best_match] and [best_params] say. *)
Definition match_report (run : attack_run) : Prop :=
  let '(res, trial, threshold, grid) := run in
  (res_success res = true ->
   threshold < res_best_match res /\
   exists r x0 c,
     In (r, x0) (tried run) /\ res_best_params res = Some (r, x0) /\
     trial r x0 = Returns (Some c) /\ res_best_match res = Qabs c) /\
  (forall r x0 c,
     In (r, x0) (tried run) -> trial r x0 = Returns (Some c) ->
     Qabs c <= res_best_match res) /\
  ((res_best_params res = None /\ res_best_match res = 0) \/
   (exists r x0 c,
      In (r, x0) (tried run) /\ res_best_params res = Some (r, x0) /\
      trial r x0 = Returns (Some c) /\ res_best_match res = Qabs c)) /\
  0 <= res_best_match res <= 1.

(** What a run says about its trial number [i + 1], at [(r, x0)], when that
    trial has no correlation: it was counted; it is not [best_params]; it is
    not the trial that set [success]; and if it was the last trial, the grid
    or the budget was exhausted. *)
Definition skip_report (max_attempts : Z) (run : attack_run) (i : nat)
    (r x0 : Q) : Prop :=
  let '(res, trial, threshold, grid) := run in
  (Z.of_nat i < res_attempts res)%Z /\
  res_best_params res <> Some (r, x0) /\
  (res_success res = true -> (Z.of_nat i + 1 < res_attempts res)%Z) /\
  ((Z.of_nat i + 1 = res_attempts res)%Z ->
   tried run = grid \/ (max_attempts <= res_attempts res)%Z).

(** * Properties

    Helper lemmas come first in each part; the theorem of a claim carries
    the claim's number in its comment. *)

(** ** The chaotic sequence generator *)

Lemma logistic_map_length (x0 r : Q) (n : nat) :
  length (logistic_map x0 r n) = n.
Proof.
  revert x0. induction n as [|n IH]; intros x0; simpl; [reflexivity|].
  now rewrite IH.
Qed.

Lemma Qsquare_nonneg (x : Q) : 0 <= x * x.
Proof.
  destruct (Qlt_le_dec x 0) as [H|H].
  - assert (x * x == (- x) * (- x)) as -> by ring.
    apply Qmult_le_0_compat; lra.
  - now apply Qmult_le_0_compat.
Qed.

(** One step of the map keeps [0, 1] for [r] in (0, 4]. *)
Lemma logistic_step_bounded (r x : Q) :
  0 < r <= 4 -> 0 <= x <= 1 -> 0 <= r * x * (1 - x) <= 1.
Proof.
  intros [Hr0 Hr4] [Hx0 Hx1].
  assert (0 <= x * (1 - x)) as Hp by (apply Qmult_le_0_compat; lra).
  assert (x * (1 - x) <= 1 # 4) as Hq.
  { pose proof (Qsquare_nonneg (x - (1 # 2))) as Hs.
    assert (x * (1 - x) == (1 # 4) - (x - (1 # 2)) * (x - (1 # 2))) as -> by ring.
    lra. }
  assert (r * x * (1 - x) == r * (x * (1 - x))) as -> by ring.
  split.
  - apply Qmult_le_0_compat; lra.
  - assert (r * (x * (1 - x)) <= 4 * (x * (1 - x))) as H4
      by (apply Qmult_le_compat_r; lra).
    lra.
Qed.

Lemma logistic_map_bounded (r : Q) (n : nat) :
  0 < r <= 4 -> forall x0, 0 <= x0 <= 1 ->
  Forall (fun x => 0 <= x <= 1) (logistic_map x0 r n).
Proof.
  intros Hr. induction n as [|n IH]; intros x0 Hx; simpl; constructor.
  - now apply logistic_step_bounded.
  - apply IH. now apply logistic_step_bounded.
Qed.

Lemma set_item_app {A} (pre : list A) (y v : A) (post : list A) :
  Gui.set_item (pre ++ y :: post) (length pre) v = pre ++ v :: post.
Proof.
  induction pre as [|p pre IH]; simpl; [reflexivity|].
  now rewrite IH.
Qed.

Lemma gui_logistic_loop (r : Q) (n : nat) :
  forall (x : Q) (pre : list Q),
    snd (fold_left
           (fun (st : Q * list Q) (i : nat) =>
              let '(x, sequence) := st in
              let x := r * x * (1 - x) in
              (x, Gui.set_item sequence i x))
           (seq (length pre) n) (x, pre ++ repeat 0 n))
    = pre ++ logistic_map x r n.
Proof.
  induction n as [|n IH]; intros x pre; simpl; [reflexivity|].
  rewrite set_item_app.
  specialize (IH (r * x * (1 - x)) (pre ++ [r * x * (1 - x)])).
  rewrite length_app in IH. simpl in IH.
  rewrite Nat.add_1_r in IH.
  rewrite <- !app_assoc in IH. simpl in IH.
  exact IH.
Qed.

(** The two copies of the generator compute the same sequence. *)
Lemma gui_logistic_map_eq (x0 r : Q) (n : nat) :
  Gui.logistic_map x0 r n = logistic_map x0 r n.
Proof.
  unfold Gui.logistic_map.
  exact (gui_logistic_loop r n x0 []).
Qed.

(** ** Normalisation to 8 bits and back *)

(** The source's [signal_range] of a signal: [np.min] and [np.max] bound
    every sample. *)
Lemma fold_min_spec (xs : list Q) :
  forall x, fold_left Qmin xs x <= x /\
            Forall (fun s => fold_left Qmin xs x <= s) xs.
Proof.
  induction xs as [|y ys IH]; intros x; simpl.
  - split; [apply Qle_refl|constructor].
  - destruct (IH (Qmin x y)) as [H1 H2].
    split; [|constructor]; try assumption.
    + eapply Qle_trans; [exact H1|apply Q.le_min_l].
    + eapply Qle_trans; [exact H1|apply Q.le_min_r].
Qed.

Lemma fold_max_spec (xs : list Q) :
  forall x, x <= fold_left Qmax xs x /\
            Forall (fun s => s <= fold_left Qmax xs x) xs.
Proof.
  induction xs as [|y ys IH]; intros x; simpl.
  - split; [apply Qle_refl|constructor].
  - destruct (IH (Qmax x y)) as [H1 H2].
    split; [|constructor]; try assumption.
    + eapply Qle_trans; [apply Q.le_max_l|exact H1].
    + eapply Qle_trans; [apply Q.le_max_r|exact H1].
Qed.

Lemma signal_range_spec (signal : list Q) :
  signal <> [] ->
  exists lo hi, Np.min signal = Returns lo /\ Np.max signal = Returns hi /\
                Forall (fun s => lo <= s <= hi) signal.
Proof.
  destruct signal as [|x xs]; [congruence|]. intros _.
  exists (fold_left Qmin xs x), (fold_left Qmax xs x).
  repeat split.
  destruct (fold_min_spec xs x) as [Hm1 Hm2].
  destruct (fold_max_spec xs x) as [HM1 HM2].
  constructor; [split; assumption|].
  rewrite Forall_forall in *. intros s Hs. split; auto.
Qed.

Lemma Qgtb_true (a b : Q) : Qgtb a b = true <-> b < a.
Proof.
  unfold Qgtb. rewrite negb_true_iff.
  split.
  - intros H. apply Qnot_le_lt. intros Hle.
    apply Qle_bool_iff in Hle. congruence.
  - intros H. destruct (Qle_bool a b) eqn:E; [|reflexivity].
    apply Qle_bool_iff in E. lra.
Qed.

Lemma Qgtb_false (a b : Q) : Qgtb a b = false <-> a <= b.
Proof.
  unfold Qgtb. rewrite negb_false_iff. apply Qle_bool_iff.
Qed.

(** ** [np.argsort] and fancy indexing *)

Section ArgsortFacts.
Context {A : Type} (leb : A -> A -> bool) (d : A) (a : list A).

Lemma insert_index_perm (i : nat) (l : list nat) :
  Permutation (Np.insert_index leb d a i l) (i :: l).
Proof.
  induction l as [|j l IH]; simpl; [apply Permutation_refl|].
  destruct (leb (nth i a d) (nth j a d)); [apply Permutation_refl|].
  eapply Permutation_trans; [apply perm_skip, IH|apply perm_swap].
Qed.

Lemma sort_indices_perm (idx : list nat) :
  Permutation (fold_right (Np.insert_index leb d a) [] idx) idx.
Proof.
  induction idx as [|i idx IH]; simpl; [constructor|].
  eapply Permutation_trans; [apply insert_index_perm|].
  now apply perm_skip.
Qed.

(** Whatever the order, [argsort] returns each index once. *)
Lemma argsort_by_perm :
  Permutation (Np.argsort_by leb d a) (seq 0 (length a)).
Proof. apply sort_indices_perm. Qed.

Lemma argsort_by_length : length (Np.argsort_by leb d a) = length a.
Proof.
  rewrite (Permutation_length argsort_by_perm). apply length_seq.
Qed.

Lemma argsort_by_in_range :
  Forall (fun i => (i < length a)%nat) (Np.argsort_by leb d a).
Proof.
  apply Forall_forall. intros i Hi.
  apply (Permutation_in _ argsort_by_perm) in Hi.
  apply in_seq in Hi. lia.
Qed.
End ArgsortFacts.

(** On integer keys the result sorts them. *)
Lemma insert_index_sorted (p : list nat) (i : nat) (l : list nat) :
  StronglySorted (fun x y => (nth x p 0 <= nth y p 0)%nat) l ->
  StronglySorted (fun x y => (nth x p 0 <= nth y p 0)%nat)
                 (Np.insert_index Nat.leb 0%nat p i l).
Proof.
  induction 1 as [|j l Hs IH Hj]; simpl.
  - repeat constructor.
  - destruct (Nat.leb_spec (nth i p 0%nat) (nth j p 0%nat)) as [Hle|Hlt].
    + constructor; [constructor; assumption|].
      constructor; [exact Hle|].
      rewrite Forall_forall in *. intros x Hx. specialize (Hj x Hx). lia.
    + constructor; [exact IH|].
      apply Forall_forall. intros x Hx.
      apply (Permutation_in _ (insert_index_perm Nat.leb 0%nat p i l)) in Hx.
      destruct Hx as [<-|Hx]; [lia|].
      rewrite Forall_forall in Hj. now apply Hj.
Qed.

Lemma argsort_index_sorted (p : list nat) :
  StronglySorted (fun x y => (nth x p 0 <= nth y p 0)%nat) (Np.argsort_index p).
Proof.
  unfold Np.argsort_index, Np.argsort_by.
  induction (seq 0 (length p)) as [|i idx IH]; simpl; [constructor|].
  now apply insert_index_sorted.
Qed.

Lemma StronglySorted_map_le (f : nat -> nat) (l : list nat) :
  StronglySorted (fun x y => (f x <= f y)%nat) l ->
  StronglySorted le (map f l).
Proof.
  induction 1 as [|x l Hs IH Hx]; simpl; constructor; auto.
  rewrite Forall_forall in *. intros y Hy.
  apply in_map_iff in Hy. destruct Hy as [z [<- Hz]]. now apply Hx.
Qed.

(** Two sorted lists with the same elements are the same list. *)
Lemma sorted_perm_unique (l1 : list nat) :
  forall l2, StronglySorted le l1 -> StronglySorted le l2 ->
             Permutation l1 l2 -> l1 = l2.
Proof.
  induction l1 as [|x l1 IH]; intros l2 H1 H2 HP.
  - apply Permutation_nil in HP. now subst.
  - destruct l2 as [|y l2].
    + apply Permutation_sym, Permutation_nil in HP. discriminate.
    + inversion H1 as [|? ? H1' Hx]; subst.
      inversion H2 as [|? ? H2' Hy]; subst.
      rewrite Forall_forall in Hx, Hy.
      assert (x = y) as ->.
      { assert (In x (y :: l2)) as Hin1
          by (apply (Permutation_in _ HP); now left).
        assert (In y (x :: l1)) as Hin2
          by (apply (Permutation_in _ (Permutation_sym HP)); now left).
        destruct Hin1 as [E|Hin1]; [now subst|].
        destruct Hin2 as [E|Hin2]; [now subst|].
        specialize (Hx _ Hin2). specialize (Hy _ Hin1). lia. }
      f_equal. apply IH; auto.
      now apply Permutation_cons_inv in HP.
Qed.

Lemma seq_sorted (len start : nat) : StronglySorted le (seq start len).
Proof.
  revert start. induction len as [|len IH]; intros start; simpl; constructor.
  - apply IH.
  - apply Forall_forall. intros x Hx. apply in_seq in Hx. lia.
Qed.

Lemma map_nth_seq {A} (a : list A) (d : A) :
  map (fun i => nth i a d) (seq 0 (length a)) = a.
Proof.
  induction a as [|x a IH]; simpl; [reflexivity|].
  f_equal. rewrite <- seq_shift, map_map. exact IH.
Qed.

(** [argsort] of a permutation of the indices is its inverse:
    [permutation[inverse_perm[k]] = k]. *)
Lemma argsort_index_inverse (p : list nat) :
  Permutation p (seq 0 (length p)) ->
  map (fun j => nth j p 0%nat) (Np.argsort_index p) = seq 0 (length p).
Proof.
  intros HP.
  apply sorted_perm_unique.
  - apply StronglySorted_map_le, argsort_index_sorted.
  - apply seq_sorted.
  - eapply Permutation_trans; [|exact HP].
    eapply Permutation_trans.
    + apply Permutation_map. apply (argsort_by_perm Nat.leb 0%nat p).
    + rewrite map_nth_seq. apply Permutation_refl.
Qed.

Lemma take_in_range {A} (a : list A) (d : A) (idx : list nat) :
  Forall (fun i => (i < length a)%nat) idx ->
  Np.take a idx = Returns (map (fun i => nth i a d) idx).
Proof.
  induction 1 as [|i idx Hi Hidx IH]; simpl; [reflexivity|].
  destruct (nth_error a i) as [x|] eqn:E.
  - rewrite IH. simpl. f_equal. f_equal.
    symmetry. now apply nth_error_nth.
  - apply nth_error_None in E. lia.
Qed.

(** The permutation invertibility of the source:
    [a[permutation][argsort(permutation)] = a]. *)
Lemma take_inverse {A} (a : list A) (d : A) (p : list nat) :
  Permutation p (seq 0 (length a)) ->
  Np.take (map (fun i => nth i a d) p) (Np.argsort_index p) = Returns a.
Proof.
  intros HP.
  assert (length p = length a) as Hlen
    by (rewrite (Permutation_length HP); apply length_seq).
  rewrite (take_in_range _ d).
  - f_equal.
    transitivity (map (fun i => nth i a d) (seq 0 (length a)));
      [|apply map_nth_seq].
    rewrite <- Hlen, <- argsort_index_inverse by (now rewrite Hlen).
    rewrite map_map.
    apply map_ext_in. intros j Hj.
    pose proof (argsort_by_in_range Nat.leb 0%nat p) as Hr.
    rewrite Forall_forall in Hr. specialize (Hr j Hj).
    rewrite (nth_indep _ d (nth 0%nat a d)) by (now rewrite length_map).
    apply (map_nth (fun i => nth i a d)).
  - rewrite length_map.
    apply (argsort_by_in_range Nat.leb 0%nat p).
Qed.

(** ** XOR with the keystream *)

Lemma zip_with_length {A B C} (f : A -> B -> C) (a : list A) :
  forall b, length a = length b -> length (Np.zip_with f a b) = length a.
Proof.
  induction a as [|x a IH]; intros [|y b] H; simpl in *; try congruence.
  now rewrite IH by congruence.
Qed.

Lemma broadcast_same_length {A C} (f : A -> A -> C) (a b : list A) :
  length a = length b -> Np.broadcast f a b = Returns (Np.zip_with f a b).
Proof.
  intros H. unfold Np.broadcast. now rewrite H, Nat.eqb_refl.
Qed.

Lemma xor_twice (a : list Z) :
  forall m, length a = length m ->
            Np.zip_with Z.lxor (Np.zip_with Z.lxor a m) m = a.
Proof.
  induction a as [|x a IH]; intros [|y m] H; simpl in *; try congruence.
  rewrite IH by congruence.
  now rewrite Z.lxor_assoc, Z.lxor_nilpotent, Z.lxor_0_r.
Qed.

Lemma xor_mask_length (x0 r : Q) (n : nat) :
  length (xor_mask (logistic_map x0 r n)) = n.
Proof.
  unfold xor_mask. now rewrite length_map, logistic_map_length.
Qed.

Lemma scaled_signal_length (signal : list Q) (lo hi : Q) :
  length (scaled_signal signal lo hi) = length signal.
Proof.
  unfold scaled_signal. destruct (Qgtb hi lo); apply length_map.
Qed.

(** ** The ciphers of the attack script *)

(** [classical_chaotic_encrypt] on a non-empty signal, and its inverse. *)
Lemma classical_round_trip (signal : list Q) (r x0 lo hi : Q) :
  Np.min signal = Returns lo -> Np.max signal = Returns hi ->
  exists enc,
    classical_chaotic_encrypt signal r x0 = Returns (enc, (lo, hi)) /\
    enc = Np.zip_with Z.lxor (scaled_signal signal lo hi)
                      (xor_mask (logistic_map x0 r (length signal))) /\
    length enc = length signal /\
    classical_chaotic_decrypt enc r x0 (lo, hi)
    = Returns (denormalize (scaled_signal signal lo hi) (lo, hi)).
Proof.
  intros Hmin Hmax.
  set (mask := xor_mask (logistic_map x0 r (length signal))).
  set (scaled := scaled_signal signal lo hi).
  assert (length scaled = length mask) as Hlen
    by (unfold scaled, mask; now rewrite scaled_signal_length, xor_mask_length).
  exists (Np.zip_with Z.lxor scaled mask).
  assert (length (Np.zip_with Z.lxor scaled mask) = length signal) as Hl.
  { rewrite zip_with_length by exact Hlen. apply scaled_signal_length. }
  repeat split.
  - unfold classical_chaotic_encrypt. rewrite Hmin, Hmax. simpl.
    unfold Np.bitwise_xor. fold scaled. fold mask.
    now rewrite broadcast_same_length.
  - exact Hl.
  - unfold classical_chaotic_decrypt. rewrite Hl. fold mask.
    unfold Np.bitwise_xor.
    rewrite broadcast_same_length
      by (rewrite zip_with_length by exact Hlen; exact Hlen).
    simpl. now rewrite xor_twice.
Qed.

(** [biometric_encrypt] and [ml_enhanced_encrypt] with a given key, and
    [biometric_decrypt] on what they return. *)
Lemma permute_xor_round_trip (signal : list Q) (r x0 lo hi : Q) :
  Np.min signal = Returns lo -> Np.max signal = Returns hi ->
  exists enc perm mask,
    permute_xor_encrypt signal r x0 = Returns (enc, perm, mask, (lo, hi), r, x0) /\
    length enc = length signal /\
    perm = Np.argsort (logistic_map x0 r (length signal)) /\
    mask = xor_mask (logistic_map x0 r (length signal)) /\
    (exists permuted,
        Np.take (scaled_signal signal lo hi) perm = Returns permuted /\
        enc = Np.zip_with Z.lxor permuted mask) /\
    biometric_decrypt enc perm mask (lo, hi)
    = Returns (denormalize (scaled_signal signal lo hi) (lo, hi)).
Proof.
  intros Hmin Hmax.
  set (seq_ := logistic_map x0 r (length signal)).
  set (mask := xor_mask seq_).
  set (perm := Np.argsort seq_).
  set (scaled := scaled_signal signal lo hi).
  set (permuted := map (fun i => nth i scaled 0%Z) perm).
  assert (length seq_ = length signal) as Hs by apply logistic_map_length.
  assert (length scaled = length signal) as Hsc by apply scaled_signal_length.
  assert (length perm = length signal) as Hp
    by (unfold perm, Np.argsort; now rewrite argsort_by_length).
  assert (length permuted = length mask) as Hlen
    by (unfold permuted, mask, xor_mask; rewrite !length_map; congruence).
  assert (Np.take scaled perm = Returns permuted) as Htake.
  { apply take_in_range. rewrite Hsc, <- Hs.
    apply (argsort_by_in_range Qle_bool 0 seq_). }
  exists (Np.zip_with Z.lxor permuted mask), perm, mask.
  assert (length (Np.zip_with Z.lxor permuted mask) = length signal) as Hl.
  { rewrite zip_with_length by exact Hlen.
    unfold permuted. now rewrite length_map. }
  repeat split.
  - unfold permute_xor_encrypt. rewrite Hmin, Hmax. simpl.
    fold seq_. fold scaled. fold perm. rewrite Htake. simpl.
    fold mask. unfold Np.bitwise_xor.
    now rewrite broadcast_same_length.
  - exact Hl.
  - exists permuted. now split.
  - unfold biometric_decrypt, Np.bitwise_xor.
    rewrite broadcast_same_length
      by (rewrite zip_with_length by exact Hlen; exact Hlen).
    simpl. rewrite xor_twice by exact Hlen.
    unfold permuted. rewrite take_inverse; [reflexivity|].
    rewrite Hsc, <- Hs. apply (argsort_by_perm Qle_bool 0 seq_).
Qed.

Lemma fold_min_in (xs : list Q) : forall x, In (fold_left Qmin xs x) (x :: xs).
Proof.
  induction xs as [|y ys IH]; intros x; simpl; [now left|].
  destruct (IH (Qmin x y)) as [H|H]; [|now right; right].
  rewrite <- H. unfold Qmin, GenericMinMax.gmin.
  destruct (x ?= y); auto.
Qed.

Lemma fold_max_in (xs : list Q) : forall x, In (fold_left Qmax xs x) (x :: xs).
Proof.
  induction xs as [|y ys IH]; intros x; simpl; [now left|].
  destruct (IH (Qmax x y)) as [H|H]; [|now right; right].
  rewrite <- H. unfold Qmax, GenericMinMax.gmax.
  destruct (x ?= y); auto.
Qed.

(** A constant signal comes back as the constant. *)
Lemma denormalize_constant (signal : list Q) (lo hi c : Q) :
  Np.min signal = Returns lo -> Np.max signal = Returns hi ->
  Forall (fun s => s == c) signal ->
  scaled_signal signal lo hi = map (fun _ => 0%Z) signal /\
  Forall (fun s => s == c) (denormalize (scaled_signal signal lo hi) (lo, hi)).
Proof.
  intros Hmin Hmax Hc.
  destruct signal as [|x xs]; [discriminate|].
  simpl in Hmin, Hmax. injection Hmin as <-. injection Hmax as <-.
  rewrite Forall_forall in Hc.
  pose proof (Hc _ (fold_min_in xs x)) as Hlo.
  pose proof (Hc _ (fold_max_in xs x)) as Hhi.
  set (lo := fold_left Qmin xs x) in *.
  set (hi := fold_left Qmax xs x) in *.
  unfold scaled_signal.
  assert (Qgtb hi lo = false) as -> by (apply Qgtb_false; lra).
  split; [reflexivity|].
  unfold denormalize. rewrite map_map.
  apply Forall_forall. intros s Hs.
  apply in_map_iff in Hs. destruct Hs as [_ [<- _]].
  change (inject_Z 0) with 0. unfold Qdiv. rewrite !Qmult_0_l. lra.
Qed.

(** ** Bytes stay bytes *)

Lemma lxor_uint8 (a b : Z) : uint8 a -> uint8 b -> uint8 (Z.lxor a b).
Proof.
  unfold uint8. intros Ha Hb.
  assert (0 <= Z.lxor a b)%Z as H0 by (apply Z.lxor_nonneg; lia).
  split; [exact H0|].
  destruct (Z.eq_dec (Z.lxor a b) 0) as [->|Hne]; [lia|].
  change 256%Z with (2 ^ 8)%Z in *.
  apply Z.log2_lt_pow2; [lia|].
  eapply Z.le_lt_trans; [apply Z.log2_lxor; lia|].
  apply Z.max_lub_lt.
  - destruct (Z.eq_dec a 0) as [->|]; [simpl; lia|].
    apply Z.log2_lt_pow2; lia.
  - destruct (Z.eq_dec b 0) as [->|]; [simpl; lia|].
    apply Z.log2_lt_pow2; lia.
Qed.

Lemma zip_with_lxor_uint8 (a : list Z) :
  forall m, Forall uint8 a -> Forall uint8 m ->
            Forall uint8 (Np.zip_with Z.lxor a m).
Proof.
  induction a as [|x a IH]; intros [|y m] Ha Hm; simpl; try constructor.
  - apply lxor_uint8; [now inversion Ha|now inversion Hm].
  - apply IH; [now inversion Ha|now inversion Hm].
Qed.

Lemma Forall_take {A} (P : A -> Prop) (a : list A) :
  Forall P a -> forall idx res, Np.take a idx = Returns res -> Forall P res.
Proof.
  intros Ha. induction idx as [|i idx IH]; simpl; intros res H.
  - injection H as <-. constructor.
  - destruct (nth_error a i) as [x|] eqn:E; [|discriminate].
    destruct (Np.take a idx) as [rest|]; simpl in H; [|discriminate].
    injection H as <-. constructor; [|now apply IH].
    rewrite Forall_forall in Ha. apply Ha. eapply nth_error_In, E.
Qed.

(** A cast to [np.uint8] gives a byte, whatever the float. *)
Lemma astype_uint8_is_uint8 (q : Q) : uint8 (Np.astype_uint8 q).
Proof. unfold uint8, Np.astype_uint8. apply Z.mod_pos_bound. lia. Qed.

Lemma xor_mask_uint8 (chaotic_seq : list Q) : Forall uint8 (xor_mask chaotic_seq).
Proof.
  unfold xor_mask. apply Forall_forall. intros b Hb.
  apply in_map_iff in Hb. destruct Hb as [c [<- _]].
  apply astype_uint8_is_uint8.
Qed.

Lemma scaled_signal_uint8 (signal : list Q) (lo hi : Q) :
  Forall uint8 (scaled_signal signal lo hi).
Proof.
  unfold scaled_signal. apply Forall_forall. intros b Hb.
  destruct (Qgtb hi lo); apply in_map_iff in Hb; destruct Hb as [s [<- _]].
  - apply astype_uint8_is_uint8.
  - unfold uint8. lia.
Qed.

Lemma denormalize_length (b : list Z) (range : Q * Q) :
  length (denormalize b range) = length b.
Proof. destruct range. unfold denormalize. apply length_map. Qed.

(** ** Round trip, key domain and the concrete scenario *)

(** C1 as stated fails on binary64.  For the signal [0, 0.02, 0.1] (min 0,
    max 0.1) and the key (3.7, 0.3): the sample 0.02 is 51 steps of the grid
    above the minimum, but the rounded quotient [0.02 / 0.1 * 255] falls
    just below 51 and the cast drops it to the byte 50; both ciphers decrypt
    it to 0.0196078431372549, which is further from 0.02 than the
    quantization step 0.1 / 255 (the distance and the step are compared as
    exact rationals). *)
Lemma C1_counterexample :
  let signal := [0; 0.02; 0.1]%float in
  let range := (0, 0.1)%float in
  let dec := [0; 0.0196078431372549; 0.1]%float in
  Binary64.scaled_signal signal 0 0.1 = [0; 50; 255]%Z /\
  Binary64.classical_chaotic_encrypt signal 3.7 0.3
  = Returns ([198; 145; 38]%Z, range) /\
  Binary64.classical_chaotic_decrypt [198; 145; 38]%Z 3.7 0.3 range
  = Returns dec /\
  Binary64.permute_xor_encrypt signal 3.7 0.3
  = Returns ([244; 163; 38]%Z, [1; 0; 2]%nat, [198; 163; 217]%Z, range,
             3.7%float, 0.3%float) /\
  Binary64.biometric_decrypt [244; 163; 38]%Z [1; 0; 2]%nat
                             [198; 163; 217]%Z range
  = Returns dec /\
  (Binary64.to_Q 0.1 - Binary64.to_Q 0) / 255
  < Qabs (Binary64.to_Q 0.02 - Binary64.to_Q 0.0196078431372549).
Proof.
  cbv zeta.
  split; [vm_compute; reflexivity|].
  split; [vm_compute; reflexivity|].
  split; [vm_compute; reflexivity|].
  split; [vm_compute; reflexivity|].
  split; [vm_compute; reflexivity|].
  vm_compute. reflexivity.
Qed.

(** C1, amended.  Round trip.  For a non-empty signal of moderate samples
    and a key of the domain, the classical cipher and the permutation+XOR cipher (biometric,
    and ML-enhanced with the key given) return a ciphertext of bytes, of the
    length of the signal, with the range (min, max) of the signal;
    decrypting it with the same key (the classical cipher) or the returned
    permutation and mask (the other two) undoes the XOR and the permutation
    without loss and returns the de-normalisation
    [b / 255 * (max - min) + min] of the truncated 8-bit scaling [b] of the
    signal, sample by sample; a constant signal encrypts without raising and
    comes back as the same constant. *)
Theorem C1_round_trip `{Np.Libm} (signal : list Q) (r x0 : Q) (model : predictor) :
  signal <> [] -> moderate signal -> key_domain r x0 ->
  exists lo hi,
    Np.min signal = Returns lo /\ Np.max signal = Returns hi /\
    (exists enc,
        classical_chaotic_encrypt signal r x0 = Returns (enc, (lo, hi)) /\
        Forall uint8 enc /\ length enc = length signal /\
        classical_chaotic_decrypt enc r x0 (lo, hi)
        = Returns (denormalize (scaled_signal signal lo hi) (lo, hi))) /\
    (exists enc perm mask,
        biometric_encrypt signal (Some r) (Some x0)
        = Returns (enc, perm, mask, (lo, hi), r, x0) /\
        ml_enhanced_encrypt signal model (Some r) (Some x0)
        = Returns (enc, perm, mask, (lo, hi), r, x0) /\
        Forall uint8 enc /\ length enc = length signal /\
        Permutation perm (seq 0 (length signal)) /\
        biometric_decrypt enc perm mask (lo, hi)
        = Returns (denormalize (scaled_signal signal lo hi) (lo, hi))) /\
    Forall uint8 (scaled_signal signal lo hi) /\
    length (denormalize (scaled_signal signal lo hi) (lo, hi)) = length signal /\
    (forall c, Forall (fun s => s == c) signal ->
               Forall (fun s => s == c)
                      (denormalize (scaled_signal signal lo hi) (lo, hi))).
Proof.
  intros Hne _ [Hr [Hx0 Hx1]].
  destruct (signal_range_spec signal Hne) as [lo [hi [Hmin [Hmax Hb]]]].
  exists lo, hi.
  assert (Forall uint8 (scaled_signal signal lo hi)) as Hsc8
    by apply scaled_signal_uint8.
  assert (Forall uint8 (xor_mask (logistic_map x0 r (length signal)))) as Hm8
    by apply xor_mask_uint8.
  split; [exact Hmin|]. split; [exact Hmax|].
  split; [|split; [|split; [exact Hsc8|split]]].
  - destruct (classical_round_trip signal r x0 lo hi Hmin Hmax)
      as [enc [He [Hform [Hl Hd]]]].
    exists enc.
    split; [exact He|]. split; [|split; [exact Hl|exact Hd]].
    rewrite Hform. now apply zip_with_lxor_uint8.
  - destruct (permute_xor_round_trip signal r x0 lo hi Hmin Hmax)
      as [enc [perm [mask [He [Hl [Hp [Hm [[permuted [Ht Hform]] Hd]]]]]]]].
    exists enc, perm, mask.
    split; [exact He|]. split; [exact He|].
    split; [|split; [exact Hl|split; [|exact Hd]]].
    + rewrite Hform. apply zip_with_lxor_uint8.
      * eapply Forall_take; [exact Hsc8|exact Ht].
      * now rewrite Hm.
    + rewrite Hp.
      pose proof (argsort_by_perm Qle_bool 0
                    (logistic_map x0 r (length signal))) as HP.
      now rewrite logistic_map_length in HP.
  - now rewrite denormalize_length, scaled_signal_length.
  - intros c Hc. now apply denormalize_constant.
Qed.

Lemma C1_round_trip_witness :
  exists lo hi,
    Np.min [1; 2; 3; 4; 5] = Returns lo /\ Np.max [1; 2; 3; 4; 5] = Returns hi /\
    (exists enc,
        classical_chaotic_encrypt [1; 2; 3; 4; 5] 3.7 0.3
        = Returns (enc, (lo, hi)) /\
        Forall uint8 enc /\ length enc = length [1; 2; 3; 4; 5] /\
        classical_chaotic_decrypt enc 3.7 0.3 (lo, hi)
        = Returns (denormalize (scaled_signal [1; 2; 3; 4; 5] lo hi) (lo, hi))) /\
    (exists enc perm mask,
        biometric_encrypt [1; 2; 3; 4; 5] (Some 3.7) (Some 0.3)
        = Returns (enc, perm, mask, (lo, hi), 3.7, 0.3) /\
        ml_enhanced_encrypt [1; 2; 3; 4; 5] (fun _ => Raises ValueError)
                            (Some 3.7) (Some 0.3)
        = Returns (enc, perm, mask, (lo, hi), 3.7, 0.3) /\
        Forall uint8 enc /\ length enc = length [1; 2; 3; 4; 5] /\
        Permutation perm (seq 0 (length [1; 2; 3; 4; 5])) /\
        biometric_decrypt enc perm mask (lo, hi)
        = Returns (denormalize (scaled_signal [1; 2; 3; 4; 5] lo hi) (lo, hi))) /\
    Forall uint8 (scaled_signal [1; 2; 3; 4; 5] lo hi) /\
    length (denormalize (scaled_signal [1; 2; 3; 4; 5] lo hi) (lo, hi))
    = length [1; 2; 3; 4; 5] /\
    (forall c, Forall (fun s => s == c) [1; 2; 3; 4; 5] ->
               Forall (fun s => s == c)
                      (denormalize (scaled_signal [1; 2; 3; 4; 5] lo hi) (lo, hi))).
Proof.
  apply (C1_round_trip [1; 2; 3; 4; 5] 3.7 0.3 (fun _ => Raises ValueError)).
  - discriminate.
  - unfold moderate.
    repeat (constructor; [vm_compute; discriminate|]). constructor.
  - unfold key_domain. lra.
Defined.

(** C2 as stated fails: with [r = 4.5], outside (0, 4], the generator of
    either file returns its iterates, the second one above 1, and the
    encrypt functions return a ciphertext. *)
Lemma C2_counterexample :
  ~ key_domain 4.5 0.1 /\
  logistic_map 0.1 4.5 2 = [0.405; 1.0843875] /\
  Gui.logistic_map 0.1 4.5 2 = [0.405; 1.0843875] /\
  classical_chaotic_encrypt [7] 4.5 0.1 = Returns ([103%Z], (7, 7)) /\
  biometric_encrypt [7] (Some 4.5) (Some 0.1)
  = Returns ([103%Z], [0%nat], [103%Z], (7, 7), 4.5, 0.1).
Proof.
  split; [unfold key_domain; lra|].
  repeat split; vm_compute; reflexivity.
Qed.

(** C2, amended.  The generator checks nothing: for every [r], [x0] and [n]
    it returns [n] iterates, in both files the same ones, and the classical
    encrypt and decrypt that call it return as well (encrypt on any
    non-empty signal).  For a key of the domain every iterate lies in
    [0, 1]. *)
Theorem C2_generator_total (x0 r : Q) (n : nat) :
  length (logistic_map x0 r n) = n /\
  Gui.logistic_map x0 r n = logistic_map x0 r n /\
  (forall signal, signal <> [] ->
     exists enc range, classical_chaotic_encrypt signal r x0 = Returns (enc, range)) /\
  (forall enc range,
     exists dec, classical_chaotic_decrypt enc r x0 range = Returns dec) /\
  (key_domain r x0 -> Forall (fun x => 0 <= x <= 1) (logistic_map x0 r n)).
Proof.
  split; [apply logistic_map_length|].
  split; [apply gui_logistic_map_eq|].
  split; [|split].
  - intros signal Hne.
    destruct (signal_range_spec signal Hne) as [lo [hi [Hmin [Hmax _]]]].
    destruct (classical_round_trip signal r x0 lo hi Hmin Hmax) as [enc [He _]].
    now exists enc, (lo, hi).
  - intros enc range.
    unfold classical_chaotic_decrypt, Np.bitwise_xor.
    rewrite broadcast_same_length by (now rewrite xor_mask_length).
    simpl. eauto.
  - intros [Hr [H0 H1]]. apply logistic_map_bounded; [exact Hr|lra].
Qed.

Lemma C2_generator_total_witness :
  Forall (fun x => 0 <= x <= 1) (logistic_map 0.3 3.7 5).
Proof.
  apply (C2_generator_total 0.3 3.7 5).
  unfold key_domain. lra.
Defined.

(** C3 as stated fails on the scaled signal: the cast to [np.uint8] drops
    the fraction, so 63.75 and 127.5 become 63 and 127, not 64 and 128; in
    exact arithmetic and in binary64 alike. *)
Lemma C3_counterexample :
  scaled_signal [1; 2; 3; 4; 5] 1 5 <> [0; 64; 128; 191; 255]%Z /\
  Binary64.scaled_signal [1; 2; 3; 4; 5]%float 1 5 <> [0; 64; 128; 191; 255]%Z.
Proof. split; vm_compute; discriminate. Qed.

(** C3, amended.  For signal = [1,2,3,4,5], r = 3.7, x0 = 0.3: the first
    iterate is 3.7 * 0.3 * 0.7 = 0.777; min = 1 and max = 5; the scaled
    signal is the truncation of (signal - min) / (max - min) * 255, that is
    [0, 63, 127, 191, 255]; mask byte 0 is floor(0.777 * 255) = 198; and the
    first byte of the classical ciphertext is 0 XOR 198 = 198.  The binary64
    run gives the same iterate, scaled bytes and mask. *)
Theorem C3_concrete_scenario :
  let signal := [1; 2; 3; 4; 5] in
  hd_error (logistic_map 0.3 3.7 5) = Some (3.7 * 0.3 * (1 - 0.3)) /\
  3.7 * 0.3 * (1 - 0.3) == 3.7 * 0.3 * 0.7 /\ 3.7 * 0.3 * 0.7 == 0.777 /\
  Np.min signal = Returns 1 /\ Np.max signal = Returns 5 /\
  scaled_signal signal 1 5 = [0; 63; 127; 191; 255]%Z /\
  scaled_signal signal 1 5
  = map (fun s => Np.Qtruncate ((s - 1) / (5 - 1) * 255)) signal /\
  hd_error (xor_mask (logistic_map 0.3 3.7 5)) = Some 198%Z /\
  Qfloor (0.777 * 255) = 198%Z /\
  classical_chaotic_encrypt signal 3.7 0.3
  = Returns (Z.lxor 0 198 :: [156; 166; 200; 21]%Z, (1, 5)) /\
  Z.lxor 0 198 = 198%Z /\
  Binary64.logistic_map 0.3 3.7 1 = [3.7 * 0.3 * 0.7]%float /\
  Binary64.logistic_map 0.3 3.7 1 = [0.777]%float /\
  Binary64.scaled_signal [1; 2; 3; 4; 5]%float 1 5 = [0; 63; 127; 191; 255]%Z /\
  Binary64.xor_mask (Binary64.logistic_map 0.3 3.7 5)
  = xor_mask (logistic_map 0.3 3.7 5).
Proof.
  cbv zeta.
  repeat (split; [vm_compute; reflexivity|]).
  vm_compute; reflexivity.
Qed.

(** ** Key derivation *)

#[export] Instance pymod_proper : Proper (Qeq ==> Qeq ==> Qeq) Np.pymod.
Proof.
  intros a a' Ea b b' Eb. unfold Np.pymod.
  assert (Qfloor (a / b) = Qfloor (a' / b')) as ->
    by (apply Qfloor_comp; now rewrite Ea, Eb).
  now rewrite Ea, Eb.
Qed.

(** Python's modulo by a positive number: the remainder in [0, b) that
    differs from [a] by a whole multiple of [b]. *)
Lemma pymod_spec (a b : Q) :
  0 < b ->
  0 <= Np.pymod a b < b /\
  a == inject_Z (Qfloor (a / b)) * b + Np.pymod a b.
Proof.
  intros Hb. unfold Np.pymod.
  pose proof (Qfloor_le (a / b)) as H1.
  pose proof (Qlt_floor (a / b)) as H2.
  rewrite inject_Z_plus in H2. change (inject_Z 1) with 1 in H2.
  set (k := inject_Z (Qfloor (a / b))) in *.
  assert (a == a / b * b) as Ha by (field; lra).
  assert (k * b <= a / b * b) as H3 by (apply Qmult_le_compat_r; lra).
  assert (a / b * b < (k + 1) * b) as H4 by (apply Qmult_lt_compat_r; lra).
  repeat split; lra.
Qed.

Lemma sum_constant (l : list Q) (c : Q) :
  Forall (fun s => s == c) l ->
  forall a, fold_left Qplus l a == a + Np.len l * c.
Proof.
  unfold Np.len.
  induction 1 as [|x l Hx Hl IH]; intros a.
  - simpl. change (inject_Z 0) with 0. ring.
  - cbn [fold_left]. rewrite IH.
    cbn [length]. rewrite Nat2Z.inj_succ, <- Z.add_1_r, inject_Z_plus.
    rewrite Hx. change (inject_Z 1) with 1. ring.
Qed.

Lemma len_pos {A} (l : list A) : l <> [] -> 0 < Np.len l.
Proof.
  destruct l as [|x l]; [congruence|]. intros _.
  unfold Np.len. change 0 with (inject_Z 0). rewrite <- Zlt_Qlt.
  simpl. lia.
Qed.

Lemma mean_constant (l : list Q) (c : Q) :
  l <> [] -> Forall (fun s => s == c) l -> Np.mean l == c.
Proof.
  intros Hne Hc. unfold Np.mean, Np.sum.
  rewrite (sum_constant l c Hc).
  pose proof (len_pos l Hne). field. lra.
Qed.

(** The key of a signal whose standard deviation is zero. *)
Lemma key_of_zero_std `{Np.Libm} (signal : list Q) :
  Np.std signal == 0 -> fst (extract_biometric_key signal) == 3.6.
Proof.
  intros E. unfold extract_biometric_key. cbn [fst].
  rewrite E. vm_compute. reflexivity.
Qed.

(** C4 as stated fails on binary64 for a constant signal.  The three
    samples 3.3 add up to 9.899999999999999, the computed mean is
    3.2999999999999994 and not 3.3, every deviation is 4.4e-16, and so is
    the computed standard deviation: the key has r = 3.6000000000000005,
    not 3.6. *)
Lemma C4_counterexample :
  let signal := [3.3; 3.3; 3.3]%float in
  Binary64.sum signal = 9.899999999999999%float /\
  Binary64.mean signal = 3.2999999999999994%float /\
  Binary64.std signal = 4.440892098500626e-16%float /\
  Binary64.pymod (Binary64.std signal) 0.4 = 4.440892098500626e-16%float /\
  fst (Binary64.extract_biometric_key signal) = 3.6000000000000005%float /\
  PrimFloat.eqb (fst (Binary64.extract_biometric_key signal)) 3.6 = false /\
  Binary64.to_Q 3.6 < Binary64.to_Q (fst (Binary64.extract_biometric_key signal)).
Proof.
  cbv zeta.
  repeat (split; [vm_compute; reflexivity|]).
  vm_compute. reflexivity.
Qed.

(** C4, amended.  For every non-empty signal of moderate samples the
    derived key is r = 3.6 + (std % 0.4) and x0 = 0.1 + (mean % 0.8), with
    the standard deviation and the mean as computed and Python's [%]: both
    remainders are non-negative, the one of the standard deviation below
    0.4; the key lies in the domain, with r in (3.5, 4.0], at least 3.6, and
    x0 in (0, 1), at least 0.1; a constant signal is not an error, and r is
    3.6 when the computed standard deviation is 0. *)
Theorem C4_key_derivation `{Np.Libm} (signal : list Q) :
  signal <> [] -> moderate signal ->
  let r := fst (extract_biometric_key signal) in
  let x0 := snd (extract_biometric_key signal) in
  r = 3.6 + Np.pymod (Np.std signal) 0.4 /\
  x0 = 0.1 + Np.pymod (Np.mean signal) 0.8 /\
  0 <= Np.pymod (Np.std signal) 0.4 < 0.4 /\
  0 <= Np.pymod (Np.mean signal) 0.8 /\
  3.6 <= r /\ 0.1 <= x0 /\
  3.5 < r <= 4.0 /\ 0 < x0 < 1 /\ key_domain r x0 /\
  (Np.std signal == 0 -> r == 3.6).
Proof.
  intros Hne Hmod r x0. unfold r, x0.
  split; [reflexivity|]. split; [reflexivity|].
  unfold extract_biometric_key. cbn [fst snd].
  destruct (pymod_spec (Np.std signal) 0.4) as [[Hs0 Hs1] _]; [lra|].
  destruct (pymod_spec (Np.mean signal) 0.8) as [[Hm0 Hm1] _]; [lra|].
  set (ps := Np.pymod (Np.std signal) 0.4) in *.
  set (pm := Np.pymod (Np.mean signal) 0.8) in *.
  split; [lra|]. split; [lra|]. split; [lra|]. split; [lra|].
  split; [lra|]. split; [lra|]. split; [unfold key_domain; lra|].
  intros E. unfold ps. apply (key_of_zero_std signal E).
Qed.

Lemma C4_key_derivation_witness :
  fst (extract_biometric_key [5; 5; 5]) == 3.6 /\
  key_domain (fst (extract_biometric_key [5; 5; 5]))
             (snd (extract_biometric_key [5; 5; 5])).
Proof.
  assert ([5; 5; 5] <> []) as Hne by discriminate.
  assert (moderate [5; 5; 5]) as Hmod.
  { unfold moderate.
    constructor; [vm_compute; discriminate|].
    constructor; [vm_compute; discriminate|].
    constructor; [vm_compute; discriminate|constructor]. }
  pose proof (C4_key_derivation [5; 5; 5] Hne Hmod) as H.
  cbv zeta in H.
  destruct H as [_ [_ [_ [_ [_ [_ [_ [_ [Hd Hc]]]]]]]]].
  split; [|exact Hd].
  apply Hc. vm_compute. reflexivity.
Defined.

(** ** The search loop *)

Section SearchFacts.
Variable trial : Q -> Q -> outcome (option Q).
Variable threshold : Q.

Lemma tally_initial : tally trial threshold [] initial_state.
Proof.
  constructor; simpl; try (intros; contradiction); auto.
  discriminate.
Qed.

Lemma update_best_upper (st : search_state) (r x0 : Q) (c : option Q) :
  best_match st <= best_match (update_best st r x0 c) /\
  attempts (update_best st r x0 c) = attempts st /\
  success (update_best st r x0 c) = success st /\
  (forall c0, c = Some c0 -> Qabs c0 <= best_match (update_best st r x0 c)).
Proof.
  unfold update_best. destruct c as [c0|].
  - destruct (Qgtb (Qabs c0) (best_match st)) eqn:E; simpl.
    + apply Qgtb_true in E. repeat split; try lra.
      intros c1 [= <-]. apply Qle_refl.
    + apply Qgtb_false in E. repeat split; try lra.
      now intros c1 [= <-].
  - repeat split; try apply Qle_refl. discriminate.
Qed.

(** One trial that returns a correlation below the threshold, a [nan], or
    raises: the tally goes on. *)
Lemma tally_step_quiet (done : list (Q * Q)) (st : search_state) (r x0 : Q) :
  tally trial threshold done st -> success st = false ->
  forall st',
    (exists e, trial r x0 = Raises e /\ st' = count_attempt st) \/
    (exists c, trial r x0 = Returns c /\ exceeds c threshold = false /\
               st' = update_best (count_attempt st) r x0 c) ->
    tally trial threshold (done ++ [(r, x0)]) st' /\ success st' = false /\
    attempts st' = (attempts st + 1)%Z.
Proof.
  intros [Ha Hu Hb Hq _] Hs st' Hst'.
  specialize (Hq Hs).
  assert (quiet trial threshold (r, x0)) as Hquiet.
  { unfold quiet, corr_at. simpl.
    destruct Hst' as [[e [-> _]]|[c [-> [Hc _]]]]; auto. }
  assert (forall p c, In p (done ++ [(r, x0)]) ->
                      corr_at trial p = Returns (Some c) ->
                      Qabs c <= best_match st' ) as Hu'.
  { intros p c Hin Hp. apply in_app_or in Hin.
    destruct Hst' as [[e [Ht ->]]|[c' [Ht [Hc ->]]]].
    - destruct Hin as [Hin|[<-|[]]]; [now apply (Hu p)|].
      unfold corr_at in Hp. simpl in Hp. congruence.
    - destruct (update_best_upper (count_attempt st) r x0 c') as [Hm [_ [_ Hn]]].
      destruct Hin as [Hin|[<-|[]]].
      + eapply Qle_trans; [now apply (Hu p)|exact Hm].
      + unfold corr_at in Hp. simpl in Hp. rewrite Ht in Hp.
        injection Hp as ->. now apply Hn. }
  assert (attempts st' = (attempts st + 1)%Z /\ success st' = false) as [Ha' Hs'].
  { destruct Hst' as [[e [Ht ->]]|[c' [Ht [Hc ->]]]]; [now simpl|].
    destruct (update_best_upper (count_attempt st) r x0 c') as [_ [-> [-> _]]].
    now simpl. }
  split; [|now split].
  constructor.
  - rewrite Ha', Ha, length_app. simpl. lia.
  - exact Hu'.
  - destruct Hst' as [[e [Ht ->]]|[c' [Ht [Hc ->]]]].
    + simpl. destruct Hb as [Hb|[p [c [Hin Hb]]]]; [now left|].
      right. exists p, c. split; [apply in_or_app; now left|exact Hb].
    + unfold update_best. destruct c' as [c0|].
      * destruct (Qgtb (Qabs c0) (best_match (count_attempt st))); simpl.
        -- right. exists (r, x0), c0. repeat split; auto.
           apply in_or_app. right. now left.
        -- destruct Hb as [Hb|[p [c [Hin Hb]]]]; [now left|].
           right. exists p, c. split; [apply in_or_app; now left|exact Hb].
      * simpl. destruct Hb as [Hb|[p [c [Hin Hb]]]]; [now left|].
        right. exists p, c. split; [apply in_or_app; now left|exact Hb].
  - intros _. apply Forall_app. split; [exact Hq|now constructor].
  - congruence.
Qed.

(** The trial that exceeds the threshold ends the search with success. *)
Lemma tally_step_success (done : list (Q * Q)) (st : search_state) (r x0 : Q)
    (c : option Q) :
  tally trial threshold done st -> success st = false ->
  trial r x0 = Returns c -> exceeds c threshold = true ->
  tally trial threshold (done ++ [(r, x0)])
        (set_success (update_best (count_attempt st) r x0 c)).
Proof.
  intros [Ha Hu Hb Hq _] Hs Ht Hc.
  specialize (Hq Hs).
  destruct c as [c0|]; [|discriminate].
  simpl in Hc. apply Qgtb_true in Hc.
  destruct (update_best_upper (count_attempt st) r x0 (Some c0))
    as [Hm [Hat [_ Hn]]].
  constructor.
  - unfold set_success; cbn [attempts]. rewrite Hat. simpl.
    rewrite Ha, length_app. simpl. lia.
  - intros p c Hin Hp. unfold set_success; cbn [best_match].
    apply in_app_or in Hin.
    destruct Hin as [Hin|[<-|[]]].
    + eapply Qle_trans; [now apply (Hu p)|exact Hm].
    + unfold corr_at in Hp. simpl in Hp. rewrite Ht in Hp.
      injection Hp as ->. now apply Hn.
  - unfold set_success; cbn [best_match best_params]. unfold update_best.
    destruct (Qgtb (Qabs c0) (best_match (count_attempt st))); simpl.
    + right. exists (r, x0), c0. repeat split; auto.
      apply in_or_app. right. now left.
    + destruct Hb as [Hb|[p [c [Hin Hb]]]]; [now left|].
      right. exists p, c. split; [apply in_or_app; now left|exact Hb].
  - simpl. discriminate.
  - intros _. exists done, (r, x0), c0. repeat split; auto.
Qed.
End SearchFacts.

Section LoopFacts.
Variable trial : Q -> Q -> outcome (option Q).
Variable threshold : Q.
Variable max_attempts : Z.

Local Abbreviation tally_ := (tally trial threshold).
Local Abbreviation inner_ := (inner_loop trial threshold max_attempts).
Local Abbreviation outer_ := (outer_loop trial threshold max_attempts).

(** The inner loop tries a prefix of the row; it stops before the end of
    the row only on success or on an exhausted budget. *)
Lemma inner_loop_tally (r : Q) (x0_range : list Q) :
  forall done st,
    tally_ done st -> success st = false ->
    exists k,
      (k <= length x0_range)%nat /\
      tally_ (done ++ map (pair r) (firstn k x0_range)) (inner_ r x0_range st) /\
      (k = length x0_range \/
       success (inner_ r x0_range st) = true \/
       (max_attempts <= attempts (inner_ r x0_range st))%Z).
Proof.
  induction x0_range as [|x0 rest IH]; intros done st Ht Hs.
  - exists 0%nat. simpl. rewrite app_nil_r. auto.
  - cbn [inner_loop].
    destruct (trial r x0) as [c|e] eqn:Etrial.
    + destruct (exceeds c threshold) eqn:Eexc.
      * exists 1%nat. simpl. split; [lia|]. split; [|now right; left].
        now apply tally_step_success.
      * destruct (tally_step_quiet trial threshold done st r x0 Ht Hs
                    (update_best (count_attempt st) r x0 c)) as [Ht' [Hs' Ha']].
        { right. exists c. auto. }
        destruct (Z.geb_spec (attempts (update_best (count_attempt st) r x0 c))
                             max_attempts) as [Hge|Hlt].
        -- exists 1%nat. simpl. split; [lia|]. split; [exact Ht'|].
           right; right. lia.
        -- destruct (IH _ _ Ht' Hs') as [k [Hk [Htk Hstop]]].
           exists (S k). cbn [firstn map length].
           split; [lia|].
           rewrite <- app_assoc in Htk. simpl in Htk.
           split; [exact Htk|].
           destruct Hstop as [->|Hstop]; auto.
    + destruct (tally_step_quiet trial threshold done st r x0 Ht Hs
                  (count_attempt st)) as [Ht' [Hs' Ha']].
      { left. exists e. auto. }
      destruct (IH _ _ Ht' Hs') as [k [Hk [Htk Hstop]]].
      exists (S k). cbn [firstn map length].
      split; [lia|].
      rewrite <- app_assoc in Htk. simpl in Htk.
      split; [exact Htk|].
      destruct Hstop as [->|Hstop]; auto.
Qed.

(** The whole search tries a prefix of the grid, in row-major order, and
    stops before its end only on success or on an exhausted budget. *)
Lemma outer_loop_tally (x0_range : list Q) (r_range : list Q) :
  forall done st,
    tally_ done st -> success st = false ->
    exists tried rest,
      list_prod r_range x0_range = tried ++ rest /\
      tally_ (done ++ tried) (outer_ r_range x0_range st) /\
      (rest = [] \/
       success (outer_ r_range x0_range st) = true \/
       (max_attempts <= attempts (outer_ r_range x0_range st))%Z).
Proof.
  induction r_range as [|r rs IH]; intros done st Ht Hs.
  - exists [], []. simpl. rewrite app_nil_r. auto.
  - cbn [outer_loop list_prod].
    destruct (inner_loop_tally r x0_range done st Ht Hs) as [k [Hk [Htk Hstop]]].
    set (st' := inner_ r x0_range st) in *.
    destruct (success st' || (attempts st' >=? max_attempts)%Z) eqn:Estop.
    + exists (map (pair r) (firstn k x0_range)),
             (map (pair r) (skipn k x0_range) ++ list_prod rs x0_range).
      split.
      * rewrite app_assoc, <- map_app, firstn_skipn. reflexivity.
      * split; [exact Htk|].
        apply orb_true_iff in Estop. destruct Estop as [E|E]; [now right; left|].
        right; right. apply Z.geb_le in E. lia.
    + apply orb_false_iff in Estop. destruct Estop as [Es Ea].
      assert (k = length x0_range) as ->.
      { destruct Hstop as [E|[E|E]]; [exact E|congruence|].
        destruct (Z.geb_spec (attempts st') max_attempts); [discriminate|lia]. }
      rewrite firstn_all in Htk.
      destruct (IH _ _ Htk Es) as [tried [rest [Hgrid [Htr Hst]]]].
      exists (map (pair r) x0_range ++ tried), rest.
      split; [rewrite Hgrid; now rewrite app_assoc|].
      rewrite app_assoc. split; assumption.
Qed.

(** Without a raising trial the budget check follows every trial, and a
    budget of at least one is never exceeded. *)
Lemma inner_loop_budget (r : Q) (x0_range : list Q) :
  (forall x0 e, trial r x0 <> Raises e) ->
  forall st, (attempts st < max_attempts)%Z ->
             (attempts (inner_ r x0_range st) <= max_attempts)%Z.
Proof.
  intros Hok.
  induction x0_range as [|x0 rest IH]; intros st Hlt; cbn [inner_loop]; [lia|].
  destruct (trial r x0) as [c|e] eqn:Etrial; [|now destruct (Hok x0 e)].
  destruct (update_best_upper (count_attempt st) r x0 c) as [_ [Ha _]].
  simpl in Ha.
  destruct (exceeds c threshold).
  - unfold set_success; cbn [attempts]. lia.
  - destruct (Z.geb_spec (attempts (update_best (count_attempt st) r x0 c))
                         max_attempts) as [Hge|Hlt']; [lia|].
    now apply IH.
Qed.

Lemma outer_loop_budget (x0_range r_range : list Q) :
  (forall r x0 e, trial r x0 <> Raises e) ->
  forall st, (attempts st < max_attempts)%Z ->
             (attempts (outer_ r_range x0_range st) <= max_attempts)%Z.
Proof.
  intros Hok.
  induction r_range as [|r rs IH]; intros st Hlt; cbn [outer_loop]; [lia|].
  pose proof (inner_loop_budget r x0_range (Hok r) st Hlt) as Hin.
  set (st' := inner_ r x0_range st) in *.
  destruct (success st' || (attempts st' >=? max_attempts)%Z) eqn:Estop;
    [exact Hin|].
  apply orb_false_iff in Estop. destruct Estop as [_ Ea].
  apply IH. destruct (Z.geb_spec (attempts st') max_attempts); [discriminate|lia].
Qed.
End LoopFacts.

(** ** The trials of the three attacks *)

Lemma clip1_bounded (x : Q) : Qabs (Np.clip1 x) <= 1.
Proof.
  unfold Np.clip1. apply Qabs_Qle_condition. split.
  - apply Q.le_max_l.
  - apply Q.max_lub; [lra|apply Q.le_min_r].
Qed.

(** [np.corrcoef] raises on a length mismatch only, and a correlation it
    returns lies in [-1, 1]. *)
Lemma corrcoef_spec `{Np.Libm} (x y : list Q) :
  (length x = length y ->
   Np.corrcoef x y = Returns None \/
   exists c, Np.corrcoef x y = Returns (Some c) /\ Qabs c <= 1) /\
  (length x <> length y -> Np.corrcoef x y = Raises ValueError).
Proof.
  unfold Np.corrcoef. split; intros Hlen.
  - rewrite Hlen, Nat.eqb_refl. simpl.
    destruct (length y <=? 1)%nat; [now left|].
    destruct (Qeq_bool (Np.cov x x) 0 || Qeq_bool (Np.cov y y) 0); [now left|].
    right. eexists. split; [reflexivity|apply clip1_bounded].
  - apply Nat.eqb_neq in Hlen. now rewrite Hlen.
Qed.

(** The candidate reconstruction of one trial. *)
Lemma classical_trial_spec `{Np.Libm} (enc : list Z) (orig : list Q)
    (range : Q * Q) (r x0 : Q) :
  exists dec,
    classical_chaotic_decrypt enc r x0 range = Returns dec /\
    length dec = length enc /\
    classical_trial enc orig range r x0 = Np.corrcoef orig dec.
Proof.
  unfold classical_trial, classical_chaotic_decrypt, Np.bitwise_xor.
  rewrite broadcast_same_length by (now rewrite xor_mask_length).
  simpl. eexists. split; [reflexivity|]. split; [|reflexivity].
  rewrite denormalize_length, zip_with_length; [reflexivity|].
  now rewrite xor_mask_length.
Qed.

Lemma permutation_trial_spec `{Np.Libm} (enc : list Z) (orig : list Q)
    (range : Q * Q) (r x0 : Q) :
  exists dec,
    biometric_decrypt enc (Np.argsort (logistic_map x0 r (length enc)))
                      (xor_mask (logistic_map x0 r (length enc))) range
    = Returns dec /\
    length dec = length enc /\
    permutation_trial enc orig range r x0 = Np.corrcoef orig dec.
Proof.
  unfold permutation_trial, biometric_decrypt, Np.bitwise_xor.
  set (chaotic := logistic_map x0 r (length enc)).
  assert (length enc = length (xor_mask chaotic)) as Hm
    by (unfold chaotic; now rewrite xor_mask_length).
  rewrite broadcast_same_length by exact Hm.
  simpl.
  set (xr := Np.zip_with Z.lxor enc (xor_mask chaotic)).
  assert (length xr = length enc) as Hxr
    by (unfold xr; now apply zip_with_length).
  assert (length (Np.argsort chaotic) = length enc) as Hp.
  { unfold Np.argsort. rewrite argsort_by_length.
    apply logistic_map_length. }
  rewrite (take_in_range xr 0%Z).
  - simpl. eexists. split; [reflexivity|]. split; [|reflexivity].
    rewrite denormalize_length, length_map.
    unfold Np.argsort_index. now rewrite argsort_by_length.
  - rewrite Hxr, <- Hp. apply (argsort_by_in_range Nat.leb 0%nat).
Qed.

Lemma attack_report (trial : Q -> Q -> outcome (option Q)) (threshold : Q)
    (r_range x0_range : list Q) (max_attempts : Z) :
  search_report max_attempts
    (attack trial threshold r_range x0_range max_attempts,
     trial, threshold, list_prod r_range x0_range).
Proof.
  unfold search_report, tried, attack.
  destruct (outer_loop_tally trial threshold max_attempts x0_range r_range
              [] initial_state (tally_initial trial threshold) eq_refl)
    as [done [rest [Hgrid [Ht Hstop]]]].
  simpl in Ht.
  set (st := outer_loop trial threshold max_attempts r_range x0_range
                        initial_state) in *.
  exists st, rest. cbn [make_result res_success res_attempts res_best_match
                        res_best_params res_success_rate].
  assert (firstn (Z.to_nat (attempts st)) (list_prod r_range x0_range) = done)
    as Hfirst.
  { rewrite (tally_attempts _ _ _ _ Ht), Nat2Z.id, Hgrid.
    rewrite firstn_app, Nat.sub_diag, firstn_all. simpl. apply app_nil_r. }
  rewrite Hfirst.
  split; [reflexivity|]. split; [reflexivity|].
  split; [reflexivity|]. split; [reflexivity|].
  split; [unfold grid_size; now rewrite length_prod, Nat2Z.inj_mul|].
  split; [exact Hgrid|]. split; [exact Ht|exact Hstop].
Qed.

Lemma attack_runs_report `{Np.Libm} (enc : list Z) (orig : list Q)
    (range : Q * Q) (model : predictor) (max_attempts : Z) :
  Forall (search_report max_attempts)
         (attack_runs enc orig range model max_attempts).
Proof.
  unfold attack_runs. repeat constructor; apply attack_report.
Qed.

Lemma attack_budget (trial : Q -> Q -> outcome (option Q)) (threshold : Q)
    (r_range x0_range : list Q) (max_attempts : Z) :
  (forall r x0 e, trial r x0 <> Raises e) -> (1 <= max_attempts)%Z ->
  (res_attempts (attack trial threshold r_range x0_range max_attempts)
   <= max_attempts)%Z.
Proof.
  intros Hok Hmax. unfold attack. cbn [make_result res_attempts].
  apply outer_loop_budget; [exact Hok|simpl; lia].
Qed.

(** With arrays of one length no trial of any attack raises. *)
Lemma trials_do_not_raise `{Np.Libm} (enc : list Z) (orig : list Q)
    (range : Q * Q) :
  length enc = length orig ->
  forall r x0 e,
    classical_trial enc orig range r x0 <> Raises e /\
    permutation_trial enc orig range r x0 <> Raises e.
Proof.
  intros Hlen r x0 e. split.
  - destruct (classical_trial_spec enc orig range r x0) as [dec [_ [Hl ->]]].
    destruct (corrcoef_spec orig dec) as [Hc _].
    destruct Hc as [->|[c [-> _]]]; congruence.
  - destruct (permutation_trial_spec enc orig range r x0) as [dec [_ [Hl ->]]].
    destruct (corrcoef_spec orig dec) as [Hc _].
    destruct Hc as [->|[c [-> _]]]; congruence.
Qed.

(** A correlation that a trial returns lies in [-1, 1]. *)
Lemma trials_bounded `{Np.Libm} (enc : list Z) (orig : list Q)
    (range : Q * Q) (r x0 c : Q) :
  (classical_trial enc orig range r x0 = Returns (Some c) -> Qabs c <= 1) /\
  (permutation_trial enc orig range r x0 = Returns (Some c) -> Qabs c <= 1).
Proof.
  split.
  - destruct (classical_trial_spec enc orig range r x0) as [dec [_ [Hl ->]]].
    intros Hc.
    destruct (Nat.eq_dec (length orig) (length dec)) as [E|E].
    + destruct (proj1 (corrcoef_spec orig dec) E) as [Hn|[c' [Hs Hb]]];
        congruence.
    + rewrite (proj2 (corrcoef_spec orig dec) E) in Hc. discriminate.
  - destruct (permutation_trial_spec enc orig range r x0) as [dec [_ [Hl ->]]].
    intros Hc.
    destruct (Nat.eq_dec (length orig) (length dec)) as [E|E].
    + destruct (proj1 (corrcoef_spec orig dec) E) as [Hn|[c' [Hs Hb]]];
        congruence.
    + rewrite (proj2 (corrcoef_spec orig dec) E) in Hc. discriminate.
Qed.

Lemma Forall_removelast {A} (P : A -> Prop) (l : list A) :
  Forall P l -> Forall P (removelast l).
Proof.
  induction 1 as [|x l Hx Hl IH]; simpl; [constructor|].
  destruct l; [constructor|]. now constructor.
Qed.

Lemma linspace_length (start stop : Q) (num : nat) :
  length (Np.linspace start stop num) = num.
Proof. unfold Np.linspace. now rewrite length_map, length_seq. Qed.

Lemma report_rate (max_attempts : Z) (run : attack_run) :
  search_report max_attempts run ->
  (0 < length (snd run))%nat ->
  rate_report run.
Proof.
  destruct run as [[[res trial] threshold] grid].
  unfold search_report, rate_report. cbn [snd].
  intros [st [rest [Hs [Ha [Hbm [Hbp [Hrate [Hgrid [Ht Hstop]]]]]]]]] Hpos.
  set (done := tried (res, trial, threshold, grid)) in *.
  pose proof (tally_attempts _ _ _ _ Ht) as Hatt.
  assert (length grid = (length done + length rest)%nat) as Hlen
    by (rewrite Hgrid at 1; apply length_app).
  rewrite Ha, Hatt.
  split; [lia|]. split; [reflexivity|].
  rewrite Hrate, Hatt.
  set (a := Z.of_nat (length done)).
  set (g := Z.of_nat (length grid)).
  assert (0 < inject_Z g) as Hg
    by (change 0 with (inject_Z 0); rewrite <- Zlt_Qlt; unfold g; lia).
  destruct (Z.ltb_spec a g) as [Hlt|Hge].
  - assert (inject_Z a / inject_Z g < 1) as Hq.
    { apply Qlt_shift_div_r; [exact Hg|].
      rewrite Qmult_1_l, <- Zlt_Qlt. exact Hlt. }
    split.
    + symmetry. apply Q.min_l. lra.
    + intros E. rewrite E in Hq. lra.
  - assert (a = g) as Eag by (unfold a, g in *; lia).
    split.
    + rewrite Eag. symmetry.
      assert (inject_Z g / inject_Z g == 1) as -> by (field; lra).
      apply Q.min_l. lra.
    + intros _.
      assert (rest = []) as -> by (apply length_zero_iff_nil; unfold a, g in *; lia).
      rewrite app_nil_r in Hgrid.
      split; [now symmetry|].
      rewrite Hgrid.
      destruct (success st) eqn:Es.
      * destruct (tally_success _ _ _ _ Ht Es) as [d [p [c [-> [Hq _]]]]].
        now rewrite removelast_last.
      * apply Forall_removelast. now apply (tally_quiet _ _ _ _ Ht).
Qed.

(** C5 as stated fails: a budget of zero (or less) still pays for the first
    trial, since the budget is compared after the counter has moved. *)
Lemma C5_counterexample :
  let max_attempts := 0%Z in
  let res := brute_force_attack_classical [198; 156; 166; 200; 21]%Z
                                          [1; 2; 3; 4; 5] (1, 5) max_attempts in
  res_attempts res = 1%Z /\ ~ (res_attempts res <= max_attempts)%Z.
Proof. vm_compute. split; [reflexivity|]. intros H. now apply H. Qed.

(** The budget is also passed when trials raise: the [except] branch skips
    the check of the inner loop, so a row is finished first.  Here the two
    arrays differ in length and every trial raises. *)
Example budget_passed_on_exceptions :
  res_attempts
    (brute_force_attack_classical [198; 156; 166]%Z [1; 2; 3; 4; 5] (1, 5) 5)
  = 10%Z.
Proof. vm_compute. reflexivity. Qed.

(** C5, amended.  For a budget of at least one and arrays of one length,
    each of the three attacks returns [attempts] of at most [max_attempts];
    [attempts] is the number of grid points tried, at most the grid size;
    [success_rate] is [attempts] over the grid size (20 x 10, 25 x 16 and
    30 x 20 points), capped at 1; and it is 1 only when every grid point was
    tried and no trial before the last one reached the threshold. *)
Theorem C5_attack_bound `{Np.Libm} (enc : list Z) (orig : list Q)
    (range : Q * Q) (model : predictor) (max_attempts : Z) :
  length enc = length orig -> (1 <= max_attempts)%Z ->
  Forall (fun run => (res_attempts (fst (fst (fst run))) <= max_attempts)%Z /\
                     rate_report run)
         (attack_runs enc orig range model max_attempts) /\
  map (fun run => length (snd run))
      (attack_runs enc orig range model max_attempts)
  = [(20 * 10)%nat; (25 * 16)%nat; (30 * 20)%nat].
Proof.
  intros Hlen Hmax.
  assert (map (fun run : attack_run => length (snd run))
              (attack_runs enc orig range model max_attempts)
          = [(20 * 10)%nat; (25 * 16)%nat; (30 * 20)%nat]) as Hsizes.
  { unfold attack_runs. cbn [map snd].
    now rewrite !length_prod, !linspace_length. }
  split; [|exact Hsizes].
  pose proof (attack_runs_report enc orig range model max_attempts) as Hrep.
  assert (Forall (fun run : attack_run => (0 < length (snd run))%nat)
                 (attack_runs enc orig range model max_attempts)) as Hpos.
  { apply Forall_forall. intros run Hin.
    apply (in_map (fun run : attack_run => length (snd run))) in Hin.
    rewrite Hsizes in Hin. simpl in Hin.
    destruct Hin as [<-|[<-|[<-|[]]]]; lia. }
  pose proof (trials_do_not_raise enc orig range Hlen) as Hok.
  assert (Forall (fun run : attack_run =>
                    (res_attempts (fst (fst (fst run))) <= max_attempts)%Z)
                 (attack_runs enc orig range model max_attempts)) as Hbud.
  { unfold attack_runs. repeat constructor; cbn [fst];
      apply attack_budget; try exact Hmax; intros r x0 e; apply Hok. }
  rewrite Forall_forall in *. intros run Hin.
  split; [now apply Hbud|].
  eapply report_rate; [now apply Hrep|now apply Hpos].
Qed.

Lemma C5_attack_bound_witness :
  Forall (fun run => (res_attempts (fst (fst (fst run))) <= 3)%Z /\
                     rate_report run)
         (attack_runs [198; 156; 166; 200; 21]%Z [1; 2; 3; 4; 5] (1, 5)
                      (fun _ => Raises ValueError) 3) /\
  map (fun run => length (snd run))
      (attack_runs [198; 156; 166; 200; 21]%Z [1; 2; 3; 4; 5] (1, 5)
                   (fun _ => Raises ValueError) 3)
  = [(20 * 10)%nat; (25 * 16)%nat; (30 * 20)%nat].
Proof.
  apply (C5_attack_bound [198; 156; 166; 200; 21]%Z [1; 2; 3; 4; 5] (1, 5)
                         (fun _ => Raises ValueError) 3).
  - reflexivity.
  - lia.
Defined.

Lemma report_match (max_attempts : Z) (run : attack_run) :
  search_report max_attempts run ->
  0 <= snd (fst run) ->
  (forall r x0 c, snd (fst (fst run)) r x0 = Returns (Some c) -> Qabs c <= 1) ->
  match_report run.
Proof.
  destruct run as [[[res trial] threshold] grid].
  unfold search_report, match_report. cbn [fst snd].
  intros [st [rest [Hs [Ha [Hbm [Hbp [Hrate [Hgrid [Ht Hstop]]]]]]]]] Hthr Hclip.
  set (done := tried (res, trial, threshold, grid)) in *.
  rewrite Hs, Hbm, Hbp.
  assert ((best_params st = None /\ best_match st = 0) \/
          (exists r x0 c,
              In (r, x0) done /\ best_params st = Some (r, x0) /\
              trial r x0 = Returns (Some c) /\ best_match st = Qabs c)) as Hbest.
  { destruct (tally_best _ _ _ _ Ht) as [Hb|[[r x0] [c Hb]]]; [now left|].
    right. now exists r, x0, c. }
  assert (forall r x0 c,
             In (r, x0) done -> trial r x0 = Returns (Some c) ->
             Qabs c <= best_match st) as Hupper.
  { intros r x0 c Hin Hc. now apply (tally_upper _ _ _ _ Ht (r, x0) c). }
  assert (success st = true -> threshold < best_match st) as Hsucc.
  { intros Es.
    destruct (tally_success _ _ _ _ Ht Es) as [d [[r x0] [c [Hd [_ [Hc Hlt]]]]]].
    eapply Qlt_le_trans; [exact Hlt|].
    apply (Hupper r x0 c); [|exact Hc].
    rewrite Hd. apply in_or_app. right. now left. }
  split; [|split; [exact Hupper|split; [exact Hbest|]]].
  - intros Es. specialize (Hsucc Es). split; [exact Hsucc|].
    destruct Hbest as [[_ H0]|Hb]; [|exact Hb].
    rewrite H0 in Hsucc. lra.
  - destruct Hbest as [[_ ->]|[r [x0 [c [_ [_ [Hc ->]]]]]]]; [lra|].
    split; [apply Qabs_nonneg|now apply (Hclip r x0)].
Qed.

(** C10.  For each of the three attacks: if [success] is returned true,
    [best_match] is strictly above the threshold of the variant (0.7, 0.8,
    0.85) and [best_params] is a grid point that was tried and whose trial
    gave a correlation of absolute value [best_match]; [best_match] is at
    least the absolute correlation of every tried point with a defined
    correlation, and it is the one of [best_params] (or 0 with no
    [best_params], when no tried point has a non-zero correlation): the
    maximum; it lies in [0, 1]. *)
Theorem C10_result_invariant `{Np.Libm} (enc : list Z) (orig : list Q)
    (range : Q * Q) (model : predictor) (max_attempts : Z) :
  Forall match_report (attack_runs enc orig range model max_attempts) /\
  map (fun run : attack_run => snd (fst run))
      (attack_runs enc orig range model max_attempts)
  = [0.7; 0.8; 0.85].
Proof.
  split; [|reflexivity].
  pose proof (attack_runs_report enc orig range model max_attempts) as Hrep.
  rewrite Forall_forall in *. intros run Hin.
  apply (report_match max_attempts run (Hrep run Hin)).
  - unfold attack_runs in Hin.
    destruct Hin as [<-|[<-|[<-|[]]]]; cbn [fst snd]; lra.
  - intros r x0 c.
    unfold attack_runs in Hin.
    destruct Hin as [<-|[<-|[<-|[]]]]; cbn [fst snd]; apply trials_bounded.
Qed.

(** The loop body on such a trial: the counter moves, nothing else does, and
    the loop goes on to the next [x0] (after a [nan], unless the budget is
    reached). *)
Lemma undefined_step (trial : Q -> Q -> outcome (option Q))
    (threshold : Q) (max_attempts : Z) (r x0 : Q) (rest : list Q)
    (st : search_state) :
  undefined (trial r x0) ->
  let st1 := count_attempt st in
  success st1 = success st /\ best_match st1 = best_match st /\
  best_params st1 = best_params st /\ attempts st1 = (attempts st + 1)%Z /\
  (inner_loop trial threshold max_attempts r (x0 :: rest) st
   = inner_loop trial threshold max_attempts r rest st1 \/
   (inner_loop trial threshold max_attempts r (x0 :: rest) st = st1 /\
    (max_attempts <= attempts st1)%Z)).
Proof.
  intros Hu st1. repeat (split; [reflexivity|]).
  cbn [inner_loop]. fold st1.
  destruct Hu as [->|[e ->]]; [|now left].
  cbn [update_best exceeds].
  destruct (Z.geb_spec (attempts st1) max_attempts); [right|left]; auto.
Qed.

Lemma report_skip (max_attempts : Z) (run : attack_run) (i : nat) (r x0 : Q) :
  search_report max_attempts run ->
  nth_error (tried run) i = Some (r, x0) ->
  undefined (snd (fst (fst run)) r x0) ->
  skip_report max_attempts run i r x0.
Proof.
  destruct run as [[[res trial] threshold] grid].
  unfold search_report, skip_report. cbn [fst snd].
  intros [st [rest [Hs [Ha [Hbm [Hbp [Hrate [Hgrid [Ht Hstop]]]]]]]]] Hnth Hu.
  set (done := tried (res, trial, threshold, grid)) in *.
  pose proof (tally_attempts _ _ _ _ Ht) as Hatt.
  assert (i < length done)%nat as Hi
    by (apply nth_error_Some; congruence).
  assert (forall c, trial r x0 <> Returns (Some c)) as Hno.
  { intros c Hc. destruct Hu as [Hu|[e Hu]]; congruence. }
  assert (success st = true -> (i + 1 < length done)%nat) as Hlater.
  { intros Es.
    destruct (tally_success _ _ _ _ Ht Es) as [d [p [c [Hd [_ [Hc _]]]]]].
    rewrite Hd, length_app in *. simpl in *.
    destruct (Nat.eq_dec i (length d)) as [->|Hne]; [|lia].
    rewrite nth_error_app2, Nat.sub_diag in Hnth by lia.
    simpl in Hnth. injection Hnth as ->.
    now destruct (Hno c). }
  rewrite Hs, Ha, Hbp, Hatt.
  split; [lia|]. split; [|split].
  - intros Hp.
    destruct (tally_best _ _ _ _ Ht) as [[Hn _]|[p [c [_ [Hb [Hc _]]]]]];
      [congruence|].
    rewrite Hb in Hp. injection Hp as ->. now destruct (Hno c).
  - intros Es. specialize (Hlater Es). lia.
  - intros Hlast.
    destruct Hstop as [->|[Es|Hb]].
    + left. now rewrite app_nil_r in Hgrid.
    + specialize (Hlater Es). lia.
    + right. lia.
Qed.

(** C9.  In each of the three attacks, a trial without a correlation (NumPy
    gave [nan], or the [try] body raised) is counted in [attempts], does not
    set [success], leaves [best_match] and [best_params] as they were, and
    does not end the search: the loop goes on to the next point, and stops
    after this trial only when the grid or the budget [max_attempts] is
    exhausted. *)
Theorem C9_undefined_trial `{Np.Libm} (enc : list Z) (orig : list Q)
    (range : Q * Q) (model : predictor) (max_attempts : Z)
    (run : attack_run) (i : nat) (r x0 : Q) :
  In run (attack_runs enc orig range model max_attempts) ->
  nth_error (tried run) i = Some (r, x0) ->
  undefined (snd (fst (fst run)) r x0) ->
  skip_report max_attempts run i r x0 /\
  (forall rest st,
     let st1 := count_attempt st in
     success st1 = success st /\ best_match st1 = best_match st /\
     best_params st1 = best_params st /\ attempts st1 = (attempts st + 1)%Z /\
     (inner_loop (snd (fst (fst run))) (snd (fst run)) max_attempts r
                 (x0 :: rest) st
      = inner_loop (snd (fst (fst run))) (snd (fst run)) max_attempts r rest st1
      \/
      (inner_loop (snd (fst (fst run))) (snd (fst run)) max_attempts r
                  (x0 :: rest) st = st1 /\
       (max_attempts <= attempts st1)%Z))).
Proof.
  intros Hin Hnth Hu.
  pose proof (attack_runs_report enc orig range model max_attempts) as Hrep.
  rewrite Forall_forall in Hrep.
  split; [now apply report_skip; [apply Hrep|..]|].
  intros rest st; now apply undefined_step.
Qed.

Lemma C9_undefined_trial_witness :
  skip_report 3
    (brute_force_attack_classical [198; 163; 217]%Z [5; 5; 5] (5, 5) 3,
     classical_trial [198; 163; 217]%Z [5; 5; 5] (5, 5),
     0.7,
     list_prod (Np.linspace 3.5 4.0 20) (Np.linspace 0.1 0.9 10))
    0 (66500 # 19000) (900 # 9000).
Proof.
  apply (C9_undefined_trial [198; 163; 217]%Z [5; 5; 5] (5, 5)
                            (fun _ => Raises ValueError) 3).
  - left. reflexivity.
  - vm_compute. reflexivity.
  - left. vm_compute. reflexivity.
Defined.

(** ** What travels with the ciphertext *)

(** C6 as stated fails: the tuple returned by [biometric_encrypt] and by
    [ml_enhanced_encrypt] holds [r] and [x0] themselves, and the XOR mask
    computed from them. *)
Lemma C6_counterexample :
  exists out,
    biometric_encrypt [1; 2; 3; 4; 5] (Some 3.7) (Some 0.3) = Returns out /\
    ml_enhanced_encrypt [1; 2; 3; 4; 5] (fun _ => Raises ValueError)
                        (Some 3.7) (Some 0.3) = Returns out /\
    returned_key out = (3.7, 0.3) /\
    returned_mask out = xor_mask (logistic_map 0.3 3.7 5) /\
    returned_mask out = [198; 163; 217; 119; 234]%Z.
Proof.
  exists ([121; 156; 217; 8; 21]%Z, [3; 1; 0; 2; 4]%nat,
          [198; 163; 217; 119; 234]%Z, (1, 5), 3.7, 0.3).
  split; [vm_compute; reflexivity|].
  split; [vm_compute; reflexivity|].
  split; [reflexivity|].
  split; vm_compute; reflexivity.
Qed.

(** C6, amended.  For a non-empty signal of moderate samples:
    [classical_chaotic_encrypt] returns the ciphertext and
    the range (min, max) only.  [biometric_encrypt] and
    [ml_enhanced_encrypt] return with the ciphertext the permutation, the
    XOR mask, the range and the key [(r, x0)] they used, whether the key was
    given, derived from the signal or predicted by the model; the mask is
    the keystream of that key, and [biometric_decrypt], which takes the
    returned permutation and mask and no key, turns the returned components
    back into the de-normalised 8-bit scaling of the signal. *)
Theorem C6_returned_components `{Np.Libm} (signal : list Q) (r x0 : Q)
    (model : predictor) :
  signal <> [] -> moderate signal ->
  exists lo hi enc out derived,
    Np.min signal = Returns lo /\ Np.max signal = Returns hi /\
    classical_chaotic_encrypt signal r x0 = Returns (enc, (lo, hi)) /\
    biometric_encrypt signal (Some r) (Some x0) = Returns out /\
    ml_enhanced_encrypt signal model (Some r) (Some x0) = Returns out /\
    returned_key out = (r, x0) /\
    returned_mask out = xor_mask (logistic_map x0 r (length signal)) /\
    decrypt_returned out
    = Returns (denormalize (scaled_signal signal lo hi) (lo, hi)) /\
    biometric_encrypt signal None None = Returns derived /\
    returned_key derived = extract_biometric_key signal /\
    returned_mask derived
    = xor_mask (logistic_map (snd (extract_biometric_key signal))
                             (fst (extract_biometric_key signal))
                             (length signal)) /\
    decrypt_returned derived
    = Returns (denormalize (scaled_signal signal lo hi) (lo, hi)) /\
    (forall key, model signal = Returns key ->
       exists predicted,
         ml_enhanced_encrypt signal model None None = Returns predicted /\
         returned_key predicted = key /\
         returned_mask predicted
         = xor_mask (logistic_map (snd key) (fst key) (length signal)) /\
         decrypt_returned predicted
         = Returns (denormalize (scaled_signal signal lo hi) (lo, hi))).
Proof.
  intros Hne _.
  destruct (signal_range_spec signal Hne) as [lo [hi [Hmin [Hmax Hb]]]].
  destruct (classical_round_trip signal r x0 lo hi Hmin Hmax)
    as [enc [He _]].
  destruct (permute_xor_round_trip signal r x0 lo hi Hmin Hmax)
    as [enc' [perm [mask [He' [_ [_ [Hm [_ Hd]]]]]]]].
  destruct (extract_biometric_key signal) as [rd xd] eqn:Ekey.
  destruct (permute_xor_round_trip signal rd xd lo hi Hmin Hmax)
    as [encd [permd [maskd [Hed [_ [_ [Hmd [_ Hdd]]]]]]]].
  exists lo, hi, enc, (enc', perm, mask, (lo, hi), r, x0),
         (encd, permd, maskd, (lo, hi), rd, xd).
  split; [exact Hmin|]. split; [exact Hmax|]. split; [exact He|].
  split; [exact He'|]. split; [exact He'|]. split; [reflexivity|].
  split; [exact Hm|]. split; [exact Hd|].
  split; [unfold biometric_encrypt; rewrite Ekey; exact Hed|].
  split; [reflexivity|]. split; [exact Hmd|]. split; [exact Hdd|].
  intros [rp xp] Hkey.
  destruct (permute_xor_round_trip signal rp xp lo hi Hmin Hmax)
    as [encp [permp [maskp [Hep [_ [_ [Hmp [_ Hdp]]]]]]]].
  exists (encp, permp, maskp, (lo, hi), rp, xp).
  split.
  - unfold ml_enhanced_encrypt, predict_key. rewrite Hkey. exact Hep.
  - split; [reflexivity|]. split; [exact Hmp|exact Hdp].
Qed.

Lemma C6_returned_components_witness :
  exists lo hi enc out derived,
    Np.min [1; 2; 3; 4; 5] = Returns lo /\
    Np.max [1; 2; 3; 4; 5] = Returns hi /\
    classical_chaotic_encrypt [1; 2; 3; 4; 5] 3.7 0.3 = Returns (enc, (lo, hi)) /\
    biometric_encrypt [1; 2; 3; 4; 5] (Some 3.7) (Some 0.3) = Returns out /\
    ml_enhanced_encrypt [1; 2; 3; 4; 5] (fun _ => Returns (3.9, 0.5))
                        (Some 3.7) (Some 0.3) = Returns out /\
    returned_key out = (3.7, 0.3) /\
    returned_mask out = xor_mask (logistic_map 0.3 3.7 (length [1; 2; 3; 4; 5])) /\
    decrypt_returned out
    = Returns (denormalize (scaled_signal [1; 2; 3; 4; 5] lo hi) (lo, hi)) /\
    biometric_encrypt [1; 2; 3; 4; 5] None None = Returns derived /\
    returned_key derived = extract_biometric_key [1; 2; 3; 4; 5] /\
    returned_mask derived
    = xor_mask (logistic_map (snd (extract_biometric_key [1; 2; 3; 4; 5]))
                             (fst (extract_biometric_key [1; 2; 3; 4; 5]))
                             (length [1; 2; 3; 4; 5])) /\
    decrypt_returned derived
    = Returns (denormalize (scaled_signal [1; 2; 3; 4; 5] lo hi) (lo, hi)) /\
    (forall key, (fun _ : list Q => Returns (3.9, 0.5)) [1; 2; 3; 4; 5]
                 = Returns key ->
       exists predicted,
         ml_enhanced_encrypt [1; 2; 3; 4; 5] (fun _ => Returns (3.9, 0.5))
                             None None = Returns predicted /\
         returned_key predicted = key /\
         returned_mask predicted
         = xor_mask (logistic_map (snd key) (fst key) (length [1; 2; 3; 4; 5])) /\
         decrypt_returned predicted
         = Returns (denormalize (scaled_signal [1; 2; 3; 4; 5] lo hi) (lo, hi))).
Proof.
  apply (C6_returned_components [1; 2; 3; 4; 5] 3.7 0.3
                                (fun _ => Returns (3.9, 0.5))).
  - discriminate.
  - unfold moderate.
    repeat (constructor; [vm_compute; discriminate|]). constructor.
Defined.

(** ** Determinism *)

(** C7 as stated fails on the GUI's [ml_enhanced_encrypt]: with the
    parameters the GUI starts with (r = 3.847, x0 = 0.623, alpha = 0.85,
    eta = 0.01) and one signal, two states of the random generator give two
    permutations and two ciphertexts. *)
Lemma C7_counterexample :
  let signal := [1; 2; 3; 4; 5; 6; 7; 8] in
  let run1 := fst (Gui.ml_enhanced_encrypt signal 3.847 0.623 0.85 0.01 draws_zero) in
  let run2 := fst (Gui.ml_enhanced_encrypt signal 3.847 0.623 0.85 0.01 draws_fifth) in
  returned_permutation run1 = Some [5; 1; 3; 6; 2; 0; 4; 7]%nat /\
  returned_permutation run2 = Some [5; 1; 3; 6; 2; 0; 7; 4]%nat /\
  run1 <> run2.
Proof.
  cbv zeta.
  assert (returned_permutation
            (fst (Gui.ml_enhanced_encrypt [1; 2; 3; 4; 5; 6; 7; 8]
                    3.847 0.623 0.85 0.01 draws_zero))
          = Some [5; 1; 3; 6; 2; 0; 4; 7]%nat) as H1
    by (vm_compute; reflexivity).
  assert (returned_permutation
            (fst (Gui.ml_enhanced_encrypt [1; 2; 3; 4; 5; 6; 7; 8]
                    3.847 0.623 0.85 0.01 draws_fifth))
          = Some [5; 1; 3; 6; 2; 0; 7; 4]%nat) as H2
    by (vm_compute; reflexivity).
  split; [exact H1|]. split; [exact H2|].
  intros E. rewrite E in H1. rewrite H1 in H2. clear E H1.
  discriminate H2.
Qed.

Lemma draws_agree (n : nat) (g g' : Gui.rng_state) :
  (forall i, (i < n)%nat -> g i = g' i) ->
  fst (Gui.random n g) = fst (Gui.random n g').
Proof.
  intros H. unfold Gui.random. cbn [fst].
  apply map_ext_in. intros i Hi. apply H. apply in_seq in Hi. lia.
Qed.

(** C7, amended.  [logistic_map(x0=0.623, r=3.847, n=1)] is the one-element
    sequence [3.847 * 0.623 * (1 - 0.623)], in both files, in exact
    arithmetic and in binary64; the
    ML-enhanced encrypt of the attack script, given a key, does not consult
    the model and returns what [biometric_encrypt] returns; the GUI's
    [ml_enhanced_encrypt] reads [n] draws of the random generator and
    advances it by [n]: two calls with the same arguments return the same
    ciphertext and permutation when their [n] draws agree (not otherwise:
    [C7_counterexample]).  The other operations read no state: they are
    functions of their arguments. *)
Theorem C7_determinism `{Np.Libm} (signal : list Q) (r x0 alpha eta : Q)
    (model model' : predictor) (g g' : Gui.rng_state) :
  logistic_map 0.623 3.847 1 = [3.847 * 0.623 * (1 - 0.623)] /\
  Gui.logistic_map 0.623 3.847 1 = [3.847 * 0.623 * (1 - 0.623)] /\
  Binary64.logistic_map 0.623 3.847 1 = [3.847 * 0.623 * (1 - 0.623)]%float /\
  ml_enhanced_encrypt signal model (Some r) (Some x0)
  = ml_enhanced_encrypt signal model' (Some r) (Some x0) /\
  ml_enhanced_encrypt signal model (Some r) (Some x0)
  = biometric_encrypt signal (Some r) (Some x0) /\
  snd (Gui.ml_enhanced_encrypt signal r x0 alpha eta g)
  = (fun i => g (i + length signal)%nat) /\
  ((forall i, (i < length signal)%nat -> g i = g' i) ->
   fst (Gui.ml_enhanced_encrypt signal r x0 alpha eta g)
   = fst (Gui.ml_enhanced_encrypt signal r x0 alpha eta g')).
Proof.
  split; [reflexivity|]. split; [reflexivity|].
  split; [vm_compute; reflexivity|].
  split; [reflexivity|]. split; [reflexivity|].
  split; [reflexivity|].
  intros Hg. unfold Gui.ml_enhanced_encrypt.
  pose proof (draws_agree (length signal) g g' Hg) as Hd.
  destruct (Gui.random (length signal) g) as [d1 g1].
  destruct (Gui.random (length signal) g') as [d2 g2].
  cbn [fst] in *. now subst.
Qed.

Lemma C7_determinism_witness :
  fst (Gui.ml_enhanced_encrypt [1; 2] 3.847 0.623 0.85 0.01 draws_zero)
  = fst (Gui.ml_enhanced_encrypt [1; 2] 3.847 0.623 0.85 0.01 draws_fifth).
Proof.
  destruct (C7_determinism [1; 2] 3.847 0.623 0.85 0.01
              (fun _ => Raises ValueError) (fun _ => Raises ValueError)
              draws_zero draws_fifth) as [_ [_ [_ [_ [_ [_ Hsame]]]]]].
  apply Hsame.
  intros i Hi. simpl in Hi.
  destruct i as [|[|i]]; [reflexivity|reflexivity|lia].
Defined.

(** ** The two definitions of the biometric transform *)

(** C8.  The additive cipher of the GUI ([chaotic_encrypt], called by its
    [biometric_encrypt]) and the permutation+XOR cipher of the attack script
    are not the same cipher: for signal [1,2,3,4,5] and the key (3.7, 0.3)
    they use the same permutation and return different ciphertexts, and the
    GUI's is neither the byte ciphertext nor its de-normalization. *)
Theorem C8_not_equivalent :
  exists signal r x0 gui_enc gui_perm enc perm mask range,
    key_domain r x0 /\
    Gui.biometric_encrypt signal r x0 = Returns (gui_enc, gui_perm) /\
    Gui.chaotic_encrypt signal r x0 = Returns (gui_enc, gui_perm) /\
    biometric_encrypt signal (Some r) (Some x0)
    = Returns (enc, perm, mask, range, r, x0) /\
    gui_perm = perm /\
    ~ Forall2 Qeq gui_enc (map inject_Z enc) /\
    ~ Forall2 Qeq gui_enc (denormalize enc range).
Proof.
  exists [1; 2; 3; 4; 5], 3.7, 0.3.
  exists [4.777; 2.6411027; 1.851333103795027;
          3.4682906856576853030583692563027;
          5.921279721720579019196622532516471219172882482485137950406099027].
  exists [3; 1; 0; 2; 4]%nat.
  exists [121; 156; 217; 8; 21]%Z, [3; 1; 0; 2; 4]%nat,
         [198; 163; 217; 119; 234]%Z, (1, 5).
  split; [unfold key_domain; lra|].
  split; [vm_compute; reflexivity|].
  split; [vm_compute; reflexivity|].
  split; [vm_compute; reflexivity|].
  split; [reflexivity|].
  split; intros E; inversion E as [|a b ? ? Hab _]; subst;
    vm_compute in Hab; discriminate.
Qed.

(** * Further properties of the code *)

(** ** The additive ciphers of the GUI *)

Lemma Forall2_map_nth {A} (R : A -> A -> Prop) (a b : list A) (da db : A)
    (idx : list nat) :
  Forall2 R a b -> Forall (fun i => (i < length a)%nat) idx ->
  Forall2 R (map (fun i => nth i a da) idx) (map (fun i => nth i b db) idx).
Proof.
  intros Hab Hidx.
  induction Hidx as [|i idx Hi Hidx IH]; cbn [map]; constructor; [|exact IH].
  clear IH Hidx. revert i Hi.
  induction Hab as [|x y a b Hxy Hab IH]; intros i Hi; [simpl in Hi; lia|].
  destruct i as [|i]; [exact Hxy|]. simpl. apply IH. simpl in Hi. lia.
Qed.

Lemma zip_add_sub (a : list Q) :
  forall c, length a = length c ->
            Forall2 (masked_unmasked c)
                    (Np.zip_with Qminus (Np.zip_with Qplus a c) c) a.
Proof.
  induction a as [|x a IH]; intros [|y c] H; simpl in *; try congruence;
    constructor.
  - exists y. split; [now left|reflexivity].
  - eapply Forall2_impl; [|apply IH; congruence].
    intros d s [k [Hk E]]. exists k. split; [now right|exact E].
Qed.

(** Adding a keystream to the permuted signal, subtracting it and undoing
    the permutation puts every sample back in its place. *)
Lemma additive_round_trip (signal k : list Q) (p : list nat) :
  length k = length signal -> Permutation p (seq 0 (length signal)) ->
  exists permuted dec,
    Np.take signal p = Returns permuted /\
    length (Np.zip_with Qplus permuted k) = length signal /\
    Np.take (Np.zip_with Qminus (Np.zip_with Qplus permuted k) k)
            (Np.argsort_index p) = Returns dec /\
    Forall2 (masked_unmasked k) dec signal.
Proof.
  intros Hk Hp.
  assert (length p = length signal) as Hlp
    by (rewrite (Permutation_length Hp); apply length_seq).
  set (permuted := map (fun i => nth i signal 0) p).
  assert (length permuted = length k) as Hpk
    by (unfold permuted; rewrite length_map; congruence).
  set (dm := Np.zip_with Qminus (Np.zip_with Qplus permuted k) k).
  assert (length (Np.zip_with Qplus permuted k) = length signal) as Hle
    by (rewrite zip_with_length by exact Hpk; congruence).
  assert (length dm = length p) as Hdm.
  { unfold dm. rewrite zip_with_length; congruence. }
  pose proof (argsort_by_in_range Nat.leb 0%nat p) as Hinv.
  exists permuted, (map (fun i => nth i dm 0) (Np.argsort_index p)).
  split; [|split; [exact Hle|split]].
  - apply take_in_range.
    apply Forall_forall. intros i Hi.
    apply (Permutation_in _ Hp) in Hi. apply in_seq in Hi. lia.
  - apply take_in_range. now rewrite Hdm.
  - pose proof (take_inverse signal 0 p Hp) as Hback.
    fold permuted in Hback.
    rewrite (take_in_range permuted 0) in Hback
      by (unfold permuted; now rewrite length_map).
    injection Hback as Hback.
    assert (Forall2 (masked_unmasked k)
                    (map (fun i => nth i dm 0) (Np.argsort_index p))
                    (map (fun i => nth i permuted 0) (Np.argsort_index p)))
      as E.
    { apply Forall2_map_nth.
      - apply zip_add_sub. exact Hpk.
      - now rewrite Hdm. }
    rewrite Hback in E. exact E.
Qed.

(** X1.  The GUI's [chaotic_encrypt] (and [biometric_encrypt], which calls
    it) never fails, whatever the signal and the key; its ciphertext has
    the length of the signal, its permutation is a permutation of the
    indices, and [chaotic_decrypt] (and [biometric_decrypt]) with the same
    key and permutation never fails either and puts every sample back in
    its place: sample [i] of the result is [(signal[i] + c) - c] for the
    value [c] of the chaotic sequence that was added to it.  (That is the
    sample itself up to the rounding of the addition and the
    subtraction.) *)
Theorem gui_chaotic_round_trip (signal : list Q) (r x0 : Q) :
  exists enc perm dec,
    Gui.chaotic_encrypt signal r x0 = Returns (enc, perm) /\
    Gui.biometric_encrypt signal r x0 = Returns (enc, perm) /\
    length enc = length signal /\
    Permutation perm (seq 0 (length signal)) /\
    Gui.chaotic_decrypt enc r x0 perm = Returns dec /\
    Gui.biometric_decrypt enc r x0 perm = Returns dec /\
    Forall2 (masked_unmasked (Gui.logistic_map x0 r (length signal)))
            dec signal.
Proof.
  unfold Gui.biometric_encrypt, Gui.biometric_decrypt,
    Gui.chaotic_encrypt, Gui.chaotic_decrypt, Gui.add, Gui.sub.
  rewrite gui_logistic_map_eq.
  set (k := logistic_map x0 r (length signal)).
  assert (length k = length signal) as Hk by apply logistic_map_length.
  assert (Permutation (Np.argsort k) (seq 0 (length signal))) as Hp
    by (rewrite <- Hk; apply (argsort_by_perm Qle_bool 0 k)).
  destruct (additive_round_trip signal k (Np.argsort k) Hk Hp)
    as [permuted [dec [Ht [Hl [Hd Heq]]]]].
  assert (length permuted = length k) as Hpk.
  { rewrite zip_with_length in Hl; [congruence|].
    destruct (Nat.eq_dec (length permuted) (length k)) as [E|E]; [exact E|].
    exfalso. apply E.
    rewrite (take_in_range signal 0) in Ht.
    - injection Ht as <-. rewrite length_map.
      unfold Np.argsort. now rewrite argsort_by_length.
    - rewrite <- Hk. apply (argsort_by_in_range Qle_bool 0 k). }
  exists (Np.zip_with Qplus permuted k), (Np.argsort k), dec.
  rewrite Ht. cbn [bind].
  rewrite broadcast_same_length by exact Hpk. cbn [bind].
  rewrite gui_logistic_map_eq, Hl. fold k.
  rewrite broadcast_same_length
    by (rewrite zip_with_length by exact Hpk; exact Hpk).
  cbn [bind].
  repeat (split; [first [reflexivity | assumption]|]).
  exact Heq.
Qed.

(** X2.  The GUI's [ml_enhanced_encrypt] never fails, whatever the signal,
    the key, [alpha], [eta] and the state of the random generator, and
    [ml_enhanced_decrypt] with the same parameters and the returned
    permutation never fails either and puts every sample back in its place:
    sample [i] of the result is [(signal[i] + a) - a] for the value [a] of
    the adaptive sequence that was added to it.  The random draws only
    choose the permutation, which the decryption takes as an argument. *)
Theorem gui_ml_enhanced_round_trip `{Np.Libm} (signal : list Q)
    (r x0 alpha eta : Q) (g : Gui.rng_state) :
  exists enc perm dec,
    fst (Gui.ml_enhanced_encrypt signal r x0 alpha eta g)
    = Returns (enc, perm) /\
    length enc = length signal /\
    Permutation perm (seq 0 (length signal)) /\
    Gui.ml_enhanced_decrypt enc r x0 alpha eta perm = Returns dec /\
    exists adaptive,
      Gui.adaptive_seq (Gui.logistic_map x0 r (length signal)) alpha eta
                       (length signal) = Returns adaptive /\
      Forall2 (masked_unmasked adaptive) dec signal.
Proof.
  unfold Gui.ml_enhanced_encrypt, Gui.ml_enhanced_decrypt, Gui.adaptive_seq,
    Gui.random, Gui.add, Gui.sub, Gui.mul.
  cbn [fst].
  rewrite gui_logistic_map_eq.
  set (n := length signal).
  set (chaotic := logistic_map x0 r n).
  assert (length chaotic = n) as Hc by apply logistic_map_length.
  set (factors := map (fun i => 1 + alpha * Np.sin (eta * i)) (Gui.arange n)).
  assert (length factors = n) as Hf
    by (unfold factors, Gui.arange; now rewrite !length_map, length_seq).
  set (k := Np.zip_with Qmult chaotic factors).
  assert (length k = n) as Hk
    by (unfold k; rewrite zip_with_length; congruence).
  rewrite (broadcast_same_length Qplus)
    by (now rewrite !length_map, length_seq, Hc).
  cbn [bind].
  set (weights := Np.zip_with Qplus (map (Qmult alpha) chaotic)
                              (map (Qmult eta) (map g (seq 0 n)))).
  assert (length weights = n) as Hw.
  { unfold weights. rewrite zip_with_length; rewrite !length_map;
      [exact Hc|now rewrite length_seq]. }
  assert (Permutation (Np.argsort weights) (seq 0 n)) as Hp
    by (rewrite <- Hw; apply (argsort_by_perm Qle_bool 0 weights)).
  destruct (additive_round_trip signal k (Np.argsort weights) Hk Hp)
    as [permuted [dec [Ht [Hl [Hd Heq]]]]].
  assert (length permuted = length k) as Hpk.
  { rewrite (take_in_range signal 0) in Ht.
    - injection Ht as <-. rewrite length_map.
      unfold Np.argsort. rewrite argsort_by_length. congruence.
    - fold n. rewrite <- Hw. apply (argsort_by_in_range Qle_bool 0 weights). }
  exists (Np.zip_with Qplus permuted k), (Np.argsort weights), dec.
  rewrite Ht. cbn [bind].
  rewrite (broadcast_same_length Qmult) by congruence.
  cbn [bind]. fold k.
  rewrite (broadcast_same_length Qplus) by exact Hpk.
  cbn [bind].
  rewrite gui_logistic_map_eq, Hl. fold n. fold chaotic. fold factors.
  rewrite (broadcast_same_length Qmult) by congruence.
  cbn [bind]. fold k.
  rewrite (broadcast_same_length Qminus)
    by (rewrite zip_with_length by exact Hpk; exact Hpk).
  cbn [bind].
  repeat (split; [first [reflexivity | assumption]|]).
  exists k. split; [reflexivity|exact Heq].
Qed.

(** ** The byte ciphers of the attack script: edges and misuse *)

(** X3.  [biometric_decrypt] undoes any permutation of the indices and any
    mask, not only the chaotic ones: for bytes [b], a permutation [p] of
    their indices and a mask of the same length, decrypting [b[p] XOR mask]
    with [p] and [mask] gives the de-normalisation of [b]. *)
Theorem biometric_decrypt_inverts (b : list Z) (p : list nat) (mask : list Z)
    (range : Q * Q) :
  Permutation p (seq 0 (length b)) -> length mask = length b ->
  exists permuted,
    Np.take b p = Returns permuted /\
    biometric_decrypt (Np.zip_with Z.lxor permuted mask) p mask range
    = Returns (denormalize b range).
Proof.
  intros Hp Hm.
  assert (length p = length b) as Hlp
    by (rewrite (Permutation_length Hp); apply length_seq).
  exists (map (fun i => nth i b 0%Z) p).
  assert (length (map (fun i => nth i b 0%Z) p) = length mask) as Hlen
    by (rewrite length_map; congruence).
  split.
  - apply take_in_range. apply Forall_forall. intros i Hi.
    apply (Permutation_in _ Hp) in Hi. apply in_seq in Hi. lia.
  - unfold biometric_decrypt, Np.bitwise_xor.
    rewrite broadcast_same_length
      by (rewrite zip_with_length by exact Hlen; exact Hlen).
    cbn [bind]. rewrite xor_twice by exact Hlen.
    now rewrite take_inverse.
Qed.

Lemma biometric_decrypt_inverts_witness :
  exists permuted,
    Np.take [10; 20; 30]%Z [2; 0; 1]%nat = Returns permuted /\
    biometric_decrypt (Np.zip_with Z.lxor permuted [7; 8; 9]%Z)
                      [2; 0; 1]%nat [7; 8; 9]%Z (0, 1)
    = Returns (denormalize [10; 20; 30]%Z (0, 1)).
Proof.
  apply (biometric_decrypt_inverts [10; 20; 30]%Z [2; 0; 1]%nat
                                   [7; 8; 9]%Z (0, 1)).
  - apply (Permutation_cons_app [0; 1]%nat [] 2%nat). apply Permutation_refl.
  - reflexivity.
Defined.

Lemma xor_cancel_mask (a : list Z) :
  forall b m, length a = length m -> length b = length m ->
    Np.zip_with Z.lxor (Np.zip_with Z.lxor a m) (Np.zip_with Z.lxor b m)
    = Np.zip_with Z.lxor a b.
Proof.
  induction a as [|x a IH]; intros [|y b] [|z m] Ha Hb; simpl in *;
    try congruence.
  rewrite IH by congruence. f_equal.
  rewrite (Z.lxor_comm y z), Z.lxor_assoc, <- (Z.lxor_assoc z z y).
  now rewrite Z.lxor_nilpotent, Z.lxor_0_l.
Qed.

(** X4.  Two signals of one length encrypted by [classical_chaotic_encrypt]
    under one key share the keystream: the XOR of the two ciphertexts is the
    XOR of the two scaled plaintexts, and the key has dropped out. *)
Theorem classical_keystream_reuse (s1 s2 : list Q) (r x0 : Q) :
  s1 <> [] -> length s1 = length s2 ->
  exists enc1 enc2 lo1 hi1 lo2 hi2,
    classical_chaotic_encrypt s1 r x0 = Returns (enc1, (lo1, hi1)) /\
    classical_chaotic_encrypt s2 r x0 = Returns (enc2, (lo2, hi2)) /\
    Np.zip_with Z.lxor enc1 enc2
    = Np.zip_with Z.lxor (scaled_signal s1 lo1 hi1) (scaled_signal s2 lo2 hi2).
Proof.
  intros Hne Hlen.
  assert (s2 <> []) as Hne2
    by (destruct s2; [destruct s1; [congruence|discriminate]|discriminate]).
  destruct (signal_range_spec s1 Hne) as [lo1 [hi1 [Hmin1 [Hmax1 _]]]].
  destruct (signal_range_spec s2 Hne2) as [lo2 [hi2 [Hmin2 [Hmax2 _]]]].
  destruct (classical_round_trip s1 r x0 lo1 hi1 Hmin1 Hmax1)
    as [enc1 [He1 [Hf1 _]]].
  destruct (classical_round_trip s2 r x0 lo2 hi2 Hmin2 Hmax2)
    as [enc2 [He2 [Hf2 _]]].
  exists enc1, enc2, lo1, hi1, lo2, hi2.
  split; [exact He1|]. split; [exact He2|].
  rewrite Hf1, Hf2, <- Hlen.
  apply xor_cancel_mask;
    rewrite scaled_signal_length, xor_mask_length; congruence.
Qed.

Lemma classical_keystream_reuse_witness :
  exists enc1 enc2 lo1 hi1 lo2 hi2,
    classical_chaotic_encrypt [1; 2; 3] 3.7 0.3 = Returns (enc1, (lo1, hi1)) /\
    classical_chaotic_encrypt [9; 4; 6] 3.7 0.3 = Returns (enc2, (lo2, hi2)) /\
    Np.zip_with Z.lxor enc1 enc2
    = Np.zip_with Z.lxor (scaled_signal [1; 2; 3] lo1 hi1)
                         (scaled_signal [9; 4; 6] lo2 hi2).
Proof.
  apply (classical_keystream_reuse [1; 2; 3] [9; 4; 6] 3.7 0.3).
  - discriminate.
  - reflexivity.
Defined.

Lemma logistic_map_zero (r : Q) (n : nat) :
  forall x, r == 0 \/ x == 0 \/ x == 1 ->
            Forall (fun c => c == 0) (logistic_map x r n).
Proof.
  induction n as [|n IH]; intros x Hx; simpl; constructor.
  - destruct Hx as [E|[E|E]]; rewrite E; ring.
  - apply IH. destruct Hx as [E|[E|E]]; [now left|right; left..];
      rewrite E; ring.
Qed.

Lemma xor_mask_zero (chaotic_seq : list Q) :
  Forall (fun c => c == 0) chaotic_seq ->
  xor_mask chaotic_seq = map (fun _ => 0%Z) chaotic_seq.
Proof.
  unfold xor_mask. induction 1 as [|c l Hc Hl IH]; cbn [map]; [reflexivity|].
  rewrite IH. f_equal. unfold Np.floor.
  assert (Qfloor (c * 255) = 0%Z) as ->; [|reflexivity].
  change 0%Z with (Qfloor 0). apply Qfloor_comp. rewrite Hc. ring.
Qed.

Lemma xor_zeros (a : list Z) {B} (l : list B) :
  length a = length l ->
  Np.zip_with Z.lxor a (map (fun _ => 0%Z) l) = a.
Proof.
  revert l. induction a as [|x a IH]; intros [|y l] H; simpl in *;
    try congruence.
  now rewrite Z.lxor_0_r, IH by congruence.
Qed.

(** X5.  A key on the edge of the map, [x0 = 0], [x0 = 1] or [r = 0],
    gives the all-zero sequence: the classical ciphertext is then the scaled
    signal itself, unmasked. *)
Theorem classical_degenerate_key (signal : list Q) (r x0 : Q) :
  signal <> [] -> r == 0 \/ x0 == 0 \/ x0 == 1 ->
  exists lo hi,
    Np.min signal = Returns lo /\ Np.max signal = Returns hi /\
    Forall (fun c => c == 0) (logistic_map x0 r (length signal)) /\
    classical_chaotic_encrypt signal r x0
    = Returns (scaled_signal signal lo hi, (lo, hi)).
Proof.
  intros Hne Hkey.
  destruct (signal_range_spec signal Hne) as [lo [hi [Hmin [Hmax _]]]].
  pose proof (logistic_map_zero r (length signal) x0 Hkey) as Hz.
  exists lo, hi. repeat split; try assumption.
  destruct (classical_round_trip signal r x0 lo hi Hmin Hmax)
    as [enc [He [Hf _]]].
  rewrite He, Hf, (xor_mask_zero _ Hz), xor_zeros; [reflexivity|].
  now rewrite scaled_signal_length, logistic_map_length.
Qed.

Lemma classical_degenerate_key_witness :
  exists lo hi,
    Np.min [1; 2; 3] = Returns lo /\ Np.max [1; 2; 3] = Returns hi /\
    Forall (fun c => c == 0) (logistic_map 1 3.7 (length [1; 2; 3])) /\
    classical_chaotic_encrypt [1; 2; 3] 3.7 1
    = Returns (scaled_signal [1; 2; 3] lo hi, (lo, hi)).
Proof.
  apply (classical_degenerate_key [1; 2; 3] 3.7 1).
  - discriminate.
  - right; right. reflexivity.
Defined.

(** X6.  The encrypt functions of the script fail on the empty signal and
    on nothing else, and then with the [ValueError] of [np.min]: whatever
    the key, given or derived. *)
Theorem encrypt_fails_only_on_empty `{Np.Libm} (signal : list Q) (r x0 : Q)
    (ro xo : option Q) (e : exn) :
  (classical_chaotic_encrypt signal r x0 = Raises e
   <-> signal = [] /\ e = ValueError) /\
  (biometric_encrypt signal ro xo = Raises e
   <-> signal = [] /\ e = ValueError).
Proof.
  destruct signal as [|s signal].
  - split; split.
    + simpl. intros [= <-]. auto.
    + intros [_ ->]. reflexivity.
    + unfold biometric_encrypt.
      destruct (match ro, xo with
                | Some r0, Some x1 => (r0, x1)
                | _, _ => extract_biometric_key []
                end) as [r' x0'].
      simpl. intros [= <-]. auto.
    + intros [_ ->]. unfold biometric_encrypt.
      destruct (match ro, xo with
                | Some r0, Some x1 => (r0, x1)
                | _, _ => extract_biometric_key []
                end) as [r' x0'].
      reflexivity.
  - assert (s :: signal <> []) as Hne by discriminate.
    destruct (signal_range_spec _ Hne) as [lo [hi [Hmin [Hmax _]]]].
    split; split.
    + destruct (classical_round_trip (s :: signal) r x0 lo hi Hmin Hmax)
        as [enc [He _]].
      rewrite He. discriminate.
    + intros [E _]. discriminate.
    + unfold biometric_encrypt.
      destruct (match ro, xo with
                | Some r0, Some x1 => (r0, x1)
                | _, _ => extract_biometric_key (s :: signal)
                end) as [r' x0'].
      destruct (permute_xor_round_trip (s :: signal) r' x0' lo hi Hmin Hmax)
        as [enc [perm [mask [He _]]]].
      rewrite He. discriminate.
    + intros [E _]. discriminate.
Qed.

Lemma take_out_of_range {A} (a : list A) (i : nat) (idx : list nat) :
  In i idx -> (length a <= i)%nat -> Np.take a idx = Raises IndexError.
Proof.
  intros Hin Hi.
  induction idx as [|j idx IH]; [contradiction|].
  cbn [Np.take].
  destruct (nth_error a j) as [x|] eqn:E; [|reflexivity].
  destruct Hin as [->|Hin].
  - apply nth_error_None in Hi. congruence.
  - rewrite (IH Hin). reflexivity.
Qed.

(** X7.  [biometric_decrypt] does not compare the lengths of its
    arguments.  With a mask of the length of the ciphertext: a permutation
    that is not longer than the ciphertext is accepted, and the result has
    the length of the permutation (a shorter one silently drops samples); a
    longer one raises [IndexError].  A mask of another length (neither side
    of length one) raises [ValueError]. *)
Theorem biometric_decrypt_lengths (enc : list Z) (perm : list nat)
    (mask : list Z) (range : Q * Q) :
  (length mask = length enc -> (length perm <= length enc)%nat ->
   exists dec, biometric_decrypt enc perm mask range = Returns dec /\
               length dec = length perm) /\
  (length mask = length enc -> (length enc < length perm)%nat ->
   biometric_decrypt enc perm mask range = Raises IndexError) /\
  (length mask <> length enc -> length mask <> 1%nat -> length enc <> 1%nat ->
   biometric_decrypt enc perm mask range = Raises ValueError).
Proof.
  unfold biometric_decrypt, Np.bitwise_xor.
  split; [|split].
  - intros Hm Hp.
    rewrite broadcast_same_length by congruence. cbn [bind].
    rewrite (take_in_range _ 0%Z).
    + cbn [bind]. eexists. split; [reflexivity|].
      rewrite denormalize_length, length_map.
      apply (argsort_by_length Nat.leb 0%nat).
    + rewrite zip_with_length by congruence.
      eapply Forall_impl; [|apply (argsort_by_in_range Nat.leb 0%nat perm)].
      intros i Hi. cbv beta in Hi. lia.
  - intros Hm Hp.
    rewrite broadcast_same_length by congruence. cbn [bind].
    rewrite (take_out_of_range _ (length enc)); [reflexivity| |].
    + apply (Permutation_in _
               (Permutation_sym (argsort_by_perm Nat.leb 0%nat perm))).
      apply in_seq. lia.
    + rewrite zip_with_length by congruence. lia.
  - intros Hm H1 H2. unfold Np.broadcast.
    destruct (Nat.eqb_spec (length enc) (length mask)) as [E|E]; [congruence|].
    destruct enc as [|a [|a' enc]]; destruct mask as [|b [|b' mask]];
      simpl in *; try congruence; reflexivity.
Qed.

Lemma biometric_decrypt_lengths_witness :
  biometric_decrypt [1; 2]%Z [0; 2; 1]%nat [5; 6]%Z (0, 1) = Raises IndexError.
Proof.
  apply (biometric_decrypt_lengths [1; 2]%Z [0; 2; 1]%nat [5; 6]%Z (0, 1)).
  - reflexivity.
  - simpl. lia.
Defined.

(** ** Encrypting without a key *)

Lemma derived_key_in_domain `{Np.Libm} (signal : list Q) :
  key_domain (fst (extract_biometric_key signal))
             (snd (extract_biometric_key signal)).
Proof.
  unfold extract_biometric_key. cbn [fst snd].
  destruct (pymod_spec (Np.std signal) 0.4) as [[Hs0 Hs1] _]; [lra|].
  destruct (pymod_spec (Np.mean signal) 0.8) as [[Hm0 Hm1] _]; [lra|].
  unfold key_domain. lra.
Qed.

(** X9.  [biometric_encrypt] called without a key, or with only one of [r]
    and [x0] (the lone one is ignored), derives the key from the signal:
    for a non-empty signal of moderate samples it returns that key, which
    lies in the key domain, with a ciphertext of bytes of the length of the
    signal, and [biometric_decrypt] on the returned components gives the
    de-normalised 8-bit scaling of the signal, as with a given key. *)
Theorem biometric_encrypt_derived_key `{Np.Libm} (signal : list Q)
    (ro xo : option Q) :
  signal <> [] -> moderate signal -> ro = None \/ xo = None ->
  exists lo hi enc perm mask,
    Np.min signal = Returns lo /\ Np.max signal = Returns hi /\
    biometric_encrypt signal ro xo
    = Returns (enc, perm, mask, (lo, hi),
               fst (extract_biometric_key signal),
               snd (extract_biometric_key signal)) /\
    key_domain (fst (extract_biometric_key signal))
               (snd (extract_biometric_key signal)) /\
    Forall uint8 enc /\ length enc = length signal /\
    biometric_decrypt enc perm mask (lo, hi)
    = Returns (denormalize (scaled_signal signal lo hi) (lo, hi)).
Proof.
  intros Hne _ Hnone.
  destruct (signal_range_spec signal Hne) as [lo [hi [Hmin [Hmax Hb]]]].
  pose proof (derived_key_in_domain signal) as Hdom.
  destruct (permute_xor_round_trip signal
              (fst (extract_biometric_key signal))
              (snd (extract_biometric_key signal)) lo hi Hmin Hmax)
    as [enc [perm [mask [He [Hl [_ [Hm [[permuted [Ht Hform]] Hd]]]]]]]].
  exists lo, hi, enc, perm, mask.
  split; [exact Hmin|]. split; [exact Hmax|].
  split.
  - rewrite <- He. unfold biometric_encrypt.
    destruct Hnone as [-> | ->]; [|destruct ro]; reflexivity.
  - split; [exact Hdom|]. split; [|split; [exact Hl|exact Hd]].
    rewrite Hform. apply zip_with_lxor_uint8.
    + eapply Forall_take; [apply scaled_signal_uint8|exact Ht].
    + rewrite Hm. apply xor_mask_uint8.
Qed.

Lemma biometric_encrypt_derived_key_witness :
  exists lo hi enc perm mask,
    Np.min [1; 2; 3; 4; 5] = Returns lo /\ Np.max [1; 2; 3; 4; 5] = Returns hi /\
    biometric_encrypt [1; 2; 3; 4; 5] (Some 3.7) None
    = Returns (enc, perm, mask, (lo, hi),
               fst (extract_biometric_key [1; 2; 3; 4; 5]),
               snd (extract_biometric_key [1; 2; 3; 4; 5])) /\
    key_domain (fst (extract_biometric_key [1; 2; 3; 4; 5]))
               (snd (extract_biometric_key [1; 2; 3; 4; 5])) /\
    Forall uint8 enc /\ length enc = length [1; 2; 3; 4; 5] /\
    biometric_decrypt enc perm mask (lo, hi)
    = Returns (denormalize (scaled_signal [1; 2; 3; 4; 5] lo hi) (lo, hi)).
Proof.
  apply (biometric_encrypt_derived_key [1; 2; 3; 4; 5] (Some 3.7) None).
  - discriminate.
  - unfold moderate.
    repeat (constructor; [vm_compute; discriminate|]). constructor.
  - right. reflexivity.
Defined.

(** X10.  [ml_enhanced_encrypt] called without a full key asks the model:
    an error of the model is the error of the call; a predicted key is used
    as it comes, without any check of its domain, and is returned in the
    tuple; the returned components still decrypt to the de-normalised 8-bit
    scaling of the signal (non-empty, of moderate samples). *)
Theorem ml_enhanced_encrypt_predicted_key (signal : list Q) (model : predictor)
    (ro xo : option Q) :
  ro = None \/ xo = None ->
  (forall e, model signal = Raises e ->
             ml_enhanced_encrypt signal model ro xo = Raises e) /\
  (forall r x0, model signal = Returns (r, x0) ->
     signal <> [] -> moderate signal ->
     exists lo hi out,
       Np.min signal = Returns lo /\ Np.max signal = Returns hi /\
       ml_enhanced_encrypt signal model ro xo = Returns out /\
       returned_key out = (r, x0) /\
       returned_mask out = xor_mask (logistic_map x0 r (length signal)) /\
       decrypt_returned out
       = Returns (denormalize (scaled_signal signal lo hi) (lo, hi))).
Proof.
  intros Hnone.
  assert (ml_enhanced_encrypt signal model ro xo
          = (key <- model signal ;;
             permute_xor_encrypt signal (fst key) (snd key))) as Hcall.
  { unfold ml_enhanced_encrypt, predict_key.
    destruct Hnone as [-> | ->]; [|destruct ro]; reflexivity. }
  rewrite Hcall. split.
  - intros e ->. reflexivity.
  - intros r x0 -> Hne _. cbn [bind fst snd].
    destruct (signal_range_spec signal Hne) as [lo [hi [Hmin [Hmax Hb]]]].
    destruct (permute_xor_round_trip signal r x0 lo hi Hmin Hmax)
      as [enc [perm [mask [He [_ [_ [Hm [_ Hd]]]]]]]].
    exists lo, hi, (enc, perm, mask, (lo, hi), r, x0).
    repeat split; assumption.
Qed.

Lemma ml_enhanced_encrypt_predicted_key_witness :
  ml_enhanced_encrypt [1; 2; 3] (fun _ => Raises ValueError) None None
  = Raises ValueError.
Proof.
  apply (ml_enhanced_encrypt_predicted_key [1; 2; 3]
           (fun _ => Raises ValueError) None None).
  - left. reflexivity.
  - reflexivity.
Defined.

(** X16.  At the grid point that is the true key, the trial of an attack
    computes the legitimate decryption: its correlation is the one between
    the plaintext given for scoring and the de-normalised scaled signal. *)
Theorem trial_at_true_key `{Np.Libm} (signal orig : list Q) (r x0 : Q) :
  signal <> [] ->
  exists lo hi enc_c enc_p perm mask,
    classical_chaotic_encrypt signal r x0 = Returns (enc_c, (lo, hi)) /\
    permute_xor_encrypt signal r x0
    = Returns (enc_p, perm, mask, (lo, hi), r, x0) /\
    classical_trial enc_c orig (lo, hi) r x0
    = Np.corrcoef orig (denormalize (scaled_signal signal lo hi) (lo, hi)) /\
    permutation_trial enc_p orig (lo, hi) r x0
    = Np.corrcoef orig (denormalize (scaled_signal signal lo hi) (lo, hi)).
Proof.
  intros Hne.
  destruct (signal_range_spec signal Hne) as [lo [hi [Hmin [Hmax _]]]].
  destruct (classical_round_trip signal r x0 lo hi Hmin Hmax)
    as [enc_c [Hec [_ [_ Hdc]]]].
  destruct (permute_xor_round_trip signal r x0 lo hi Hmin Hmax)
    as [enc_p [perm [mask [Hep [Hl [Hp [Hm [_ Hdp]]]]]]]].
  exists lo, hi, enc_c, enc_p, perm, mask.
  split; [exact Hec|]. split; [exact Hep|]. split.
  - unfold classical_trial. now rewrite Hdc.
  - destruct (permutation_trial_spec enc_p orig (lo, hi) r x0)
      as [dec [Hd [_ ->]]].
    rewrite Hl, <- Hp, <- Hm, Hdp in Hd. now injection Hd as <-.
Qed.

Lemma trial_at_true_key_witness :
  exists lo hi enc_c enc_p perm mask,
    classical_chaotic_encrypt [1; 2; 3] 3.7 0.3 = Returns (enc_c, (lo, hi)) /\
    permute_xor_encrypt [1; 2; 3] 3.7 0.3
    = Returns (enc_p, perm, mask, (lo, hi), 3.7, 0.3) /\
    classical_trial enc_c [1; 2; 3] (lo, hi) 3.7 0.3
    = Np.corrcoef [1; 2; 3]
        (denormalize (scaled_signal [1; 2; 3] lo hi) (lo, hi)) /\
    permutation_trial enc_p [1; 2; 3] (lo, hi) 3.7 0.3
    = Np.corrcoef [1; 2; 3]
        (denormalize (scaled_signal [1; 2; 3] lo hi) (lo, hi)).
Proof.
  apply (trial_at_true_key [1; 2; 3] [1; 2; 3] 3.7 0.3).
  discriminate.
Defined.

(** ** More on the searches *)

Section CountFacts.
Variable trial : Q -> Q -> outcome (option Q).
Variable threshold : Q.
Variable max_attempts : Z.

Lemma inner_loop_counts (r : Q) (x0_range : list Q) :
  forall st,
    (attempts st
     <= attempts (inner_loop trial threshold max_attempts r x0_range st))%Z /\
    (x0_range <> [] ->
     (attempts st + 1
      <= attempts (inner_loop trial threshold max_attempts r x0_range st))%Z).
Proof.
  induction x0_range as [|x0 rest IH]; intros st.
  - split; [cbn; lia|congruence].
  - cbn [inner_loop].
    assert (attempts st + 1
            <= attempts (match trial r x0 with
                         | Returns correlation =>
                             if exceeds correlation threshold
                             then set_success
                                    (update_best (count_attempt st) r x0 correlation)
                             else if (attempts
                                        (update_best (count_attempt st) r x0
                                                     correlation)
                                      >=? max_attempts)%Z
                                  then update_best (count_attempt st) r x0
                                                   correlation
                                  else inner_loop trial threshold max_attempts r
                                         rest
                                         (update_best (count_attempt st) r x0
                                                      correlation)
                         | Raises _ =>
                             inner_loop trial threshold max_attempts r rest
                                        (count_attempt st)
                         end))%Z as Hstep.
    { destruct (trial r x0) as [c|e].
      - destruct (update_best_upper (count_attempt st) r x0 c) as [_ [Ha _]].
        simpl in Ha.
        destruct (exceeds c threshold);
          [unfold set_success; cbn [attempts]; lia|].
        destruct (attempts (update_best (count_attempt st) r x0 c)
                  >=? max_attempts)%Z; [lia|].
        destruct (IH (update_best (count_attempt st) r x0 c)) as [Hle _]. lia.
      - destruct (IH (count_attempt st)) as [Hle _]. simpl in Hle. lia. }
    split; [lia|intros _; exact Hstep].
Qed.

Lemma outer_loop_monotone (x0_range r_range : list Q) :
  forall st,
    (attempts st
     <= attempts (outer_loop trial threshold max_attempts r_range x0_range st))%Z.
Proof.
  induction r_range as [|r rs IH]; intros st; cbn [outer_loop]; [lia|].
  destruct (inner_loop_counts r x0_range st) as [Hle _].
  set (st' := inner_loop trial threshold max_attempts r x0_range st) in *.
  destruct (success st' || (attempts st' >=? max_attempts)%Z); [exact Hle|].
  specialize (IH st'). lia.
Qed.

Lemma outer_loop_counts (x0_range r_range : list Q) :
  x0_range <> [] -> r_range <> [] ->
  forall st,
    (attempts st + 1
     <= attempts (outer_loop trial threshold max_attempts r_range x0_range st))%Z.
Proof.
  intros Hx Hr st. destruct r_range as [|r rs]; [congruence|].
  cbn [outer_loop].
  destruct (inner_loop_counts r x0_range st) as [_ Hin]. specialize (Hin Hx).
  set (st' := inner_loop trial threshold max_attempts r x0_range st) in *.
  destruct (success st' || (attempts st' >=? max_attempts)%Z); [exact Hin|].
  pose proof (outer_loop_monotone x0_range rs st'). lia.
Qed.
End CountFacts.

(** Each of the three attacks is the one loop, on a non-empty grid. *)
Lemma attack_runs_shape `{Np.Libm} (enc : list Z) (orig : list Q)
    (range : Q * Q) (model : predictor) (max_attempts : Z) (run : attack_run) :
  In run (attack_runs enc orig range model max_attempts) ->
  exists trial threshold r_range x0_range,
    run = (attack trial threshold r_range x0_range max_attempts,
           trial, threshold, list_prod r_range x0_range) /\
    r_range <> [] /\ x0_range <> [] /\
    (trial = classical_trial enc orig range \/
     trial = permutation_trial enc orig range).
Proof.
  assert (forall a b n, Np.linspace a b (S n) <> []) as Hne.
  { intros a b n E. apply (f_equal (@length Q)) in E.
    rewrite linspace_length in E. discriminate. }
  unfold attack_runs. intros [<-|[<-|[<-|[]]]].
  - exists (classical_trial enc orig range), 0.7,
           (Np.linspace 3.5 4.0 20), (Np.linspace 0.1 0.9 10).
    repeat split; auto.
  - exists (permutation_trial enc orig range), 0.8,
           (Np.linspace 3.5 4.0 25), (Np.linspace 0.1 0.9 16).
    repeat split; auto.
  - exists (permutation_trial enc orig range), 0.85,
           (Np.linspace 3.5 4.0 30), (Np.linspace 0.1 0.9 20).
    repeat split; auto.
Qed.

Lemma attack_attempts_pos (trial : Q -> Q -> outcome (option Q))
    (threshold : Q) (r_range x0_range : list Q) (max_attempts : Z) :
  r_range <> [] -> x0_range <> [] ->
  (1 <= res_attempts (attack trial threshold r_range x0_range max_attempts))%Z.
Proof.
  intros Hr Hx. unfold attack. cbn [make_result res_attempts].
  pose proof (outer_loop_counts trial threshold max_attempts x0_range r_range
                Hx Hr initial_state) as Hc.
  simpl in Hc. exact Hc.
Qed.

Lemma grid_nonempty (r_range x0_range : list Q) :
  r_range <> [] -> x0_range <> [] ->
  (0 < length (list_prod r_range x0_range))%nat.
Proof.
  intros Hr Hx. rewrite length_prod.
  destruct r_range; [congruence|]. destruct x0_range; [congruence|].
  simpl. lia.
Qed.

(** X11.  Every attack makes at least one trial, whatever the budget (a
    budget of zero or less included) and whatever the arrays, and never more
    trials than the grid has points; the returned [success_rate] lies in
    (0, 1]. *)
Theorem attack_always_tries `{Np.Libm} (enc : list Z) (orig : list Q)
    (range : Q * Q) (model : predictor) (max_attempts : Z) :
  Forall (fun run : attack_run =>
            let res := fst (fst (fst run)) in
            (1 <= res_attempts res <= Z.of_nat (length (snd run)))%Z /\
            0 < res_success_rate res <= 1)
         (attack_runs enc orig range model max_attempts).
Proof.
  apply Forall_forall. intros run Hin.
  pose proof (attack_runs_report enc orig range model max_attempts) as Hrep.
  rewrite Forall_forall in Hrep. specialize (Hrep run Hin).
  destruct (attack_runs_shape enc orig range model max_attempts run Hin)
    as [trial [thr [rr [xr [-> [Hr [Hx _]]]]]]].
  pose proof (grid_nonempty rr xr Hr Hx) as Hg.
  pose proof (attack_attempts_pos trial thr rr xr max_attempts Hr Hx) as Hpos.
  destruct (report_rate max_attempts _ Hrep Hg) as [Hle [_ [Hrate _]]].
  cbn [fst snd] in *. cbv zeta.
  set (res := attack trial thr rr xr max_attempts) in *.
  split; [lia|].
  rewrite Hrate.
  set (g := Z.of_nat (length (list_prod rr xr))) in *.
  assert (0 < inject_Z g) as Hgq
    by (change 0 with (inject_Z 0); rewrite <- Zlt_Qlt; lia).
  assert (0 < inject_Z (res_attempts res)) as Haq
    by (change 0 with (inject_Z 0); rewrite <- Zlt_Qlt; lia).
  assert (0 < inject_Z (res_attempts res) / inject_Z g) as Hq
    by (apply Qlt_shift_div_l; lra).
  split; [|apply Q.le_min_r].
  apply Q.min_glb_lt; lra.
Qed.

Lemma attack_runs_budget `{Np.Libm} (enc : list Z) (orig : list Q)
    (range : Q * Q) (model : predictor) (max_attempts : Z) :
  length enc = length orig -> (1 <= max_attempts)%Z ->
  Forall (fun run : attack_run =>
            (res_attempts (fst (fst (fst run))) <= max_attempts)%Z)
         (attack_runs enc orig range model max_attempts).
Proof.
  intros Hlen Hmax.
  pose proof (trials_do_not_raise enc orig range Hlen) as Hok.
  unfold attack_runs. repeat constructor; cbn [fst];
    apply attack_budget; try exact Hmax; intros r x0 e; apply Hok.
Qed.

(** X12.  An attack that ends without success has used the whole budget
    or the whole grid: with arrays of one length and a budget of at least
    one, [success = False] comes with [attempts = min(max_attempts, grid
    size)], and with a budget of at least the grid size (the default of each
    attack is its grid size) the returned [success_rate] is 1.0. *)
Theorem failed_attack_rate `{Np.Libm} (enc : list Z) (orig : list Q)
    (range : Q * Q) (model : predictor) (max_attempts : Z) :
  length enc = length orig -> (1 <= max_attempts)%Z ->
  Forall (fun run : attack_run =>
            let res := fst (fst (fst run)) in
            let grid := Z.of_nat (length (snd run)) in
            res_success res = false ->
            res_attempts res = Z.min max_attempts grid /\
            ((grid <= max_attempts)%Z -> res_success_rate res = 1))
         (attack_runs enc orig range model max_attempts).
Proof.
  intros Hlen Hmax.
  pose proof (attack_runs_report enc orig range model max_attempts) as Hrep.
  pose proof (attack_runs_budget enc orig range model max_attempts Hlen Hmax)
    as Hbud.
  rewrite Forall_forall in *. intros run Hin.
  specialize (Hrep run Hin). specialize (Hbud run Hin).
  destruct run as [[[res trial] thr] grid].
  cbn [fst snd] in *. cbv zeta. intros Hfail.
  destruct Hrep as [st [rest [Hs [Ha [_ [_ [Hrate [Hgrid [Ht Hstop]]]]]]]]].
  pose proof (tally_attempts _ _ _ _ Ht) as Hatt.
  assert (length grid
          = (length (tried (res, trial, thr, grid)) + length rest)%nat) as Hlg
    by (rewrite Hgrid at 1; apply length_app).
  assert (res_attempts res = Z.min max_attempts (Z.of_nat (length grid)))
    as Hmin.
  { destruct Hstop as [->|[Es|Hb]].
    - cbn [length] in Hlg. lia.
    - congruence.
    - lia. }
  split; [exact Hmin|].
  intros Hge. rewrite Hrate.
  destruct (Z.ltb_spec (attempts st) (Z.of_nat (length grid))); [lia|reflexivity].
Qed.

Lemma failed_attack_rate_witness :
  Forall (fun run : attack_run =>
            let res := fst (fst (fst run)) in
            let grid := Z.of_nat (length (snd run)) in
            res_success res = false ->
            res_attempts res = Z.min 2 grid /\
            ((grid <= 2)%Z -> res_success_rate res = 1))
         (attack_runs [198; 163; 217]%Z [5; 5; 5] (5, 5)
                      (fun _ => Raises ValueError) 2).
Proof.
  apply (failed_attack_rate [198; 163; 217]%Z [5; 5; 5] (5, 5)
                            (fun _ => Raises ValueError) 2).
  - reflexivity.
  - lia.
Defined.

Lemma attack_all_undefined (trial : Q -> Q -> outcome (option Q))
    (threshold : Q) (r_range x0_range : list Q) (max_attempts : Z) :
  (forall r x0, undefined (trial r x0)) ->
  let res := attack trial threshold r_range x0_range max_attempts in
  res_success res = false /\ res_best_match res = 0 /\
  res_best_params res = None.
Proof.
  intros Hu res.
  destruct (attack_report trial threshold r_range x0_range max_attempts)
    as [st [rest [Hs [_ [Hbm [Hbp [_ [_ [Ht _]]]]]]]]].
  fold res in Hs, Hbm, Hbp.
  assert (forall p c, corr_at trial p <> Returns (Some c)) as Hno.
  { intros [r x0] c Hc. unfold corr_at in Hc. cbn [fst snd] in Hc.
    destruct (Hu r x0) as [E|[e E]]; congruence. }
  rewrite Hs, Hbm, Hbp. split; [|].
  - destruct (success st) eqn:Es; [|reflexivity].
    destruct (tally_success _ _ _ _ Ht Es) as [d [p [c [_ [_ [Hc _]]]]]].
    now destruct (Hno p c).
  - destruct (tally_best _ _ _ _ Ht) as [[Hp Hm]|[p [c [_ [_ [Hc _]]]]]];
      [now split|now destruct (Hno p c)].
Qed.

(** A correlation with a plaintext of at most one sample, or with a
    candidate of another length, is not a number. *)
Lemma corrcoef_short `{Np.Libm} (orig dec : list Q) :
  (length orig <= 1)%nat \/ length dec <> length orig ->
  undefined (Np.corrcoef orig dec).
Proof.
  intros Hs.
  destruct (Nat.eq_dec (length orig) (length dec)) as [E|E].
  - left. destruct Hs as [Hs|Hs]; [|congruence].
    unfold Np.corrcoef. rewrite <- E, Nat.eqb_refl. cbn [negb].
    apply Nat.leb_le in Hs. now rewrite Hs.
  - right. exists ValueError. now apply corrcoef_spec.
Qed.

(** X13.  An attack scored against a plaintext of at most one sample, or
    of another length than the ciphertext, cannot score: every trial gives
    [nan] or raises inside the [try], and the three attacks return
    [success = False], [best_match = 0] and [best_params = None], whatever
    the ciphertext, the range and the budget. *)
Theorem attack_without_correlation `{Np.Libm} (enc : list Z) (orig : list Q)
    (range : Q * Q) (model : predictor) (max_attempts : Z) :
  (length orig <= 1)%nat \/ length enc <> length orig ->
  Forall (fun run : attack_run =>
            let res := fst (fst (fst run)) in
            (forall r x0, undefined (snd (fst (fst run)) r x0)) /\
            res_success res = false /\ res_best_match res = 0 /\
            res_best_params res = None)
         (attack_runs enc orig range model max_attempts).
Proof.
  intros Hs. apply Forall_forall. intros run Hin.
  destruct (attack_runs_shape enc orig range model max_attempts run Hin)
    as [trial [thr [rr [xr [-> [_ [_ Htrial]]]]]]].
  cbn [fst snd]. cbv zeta.
  assert (forall r x0, undefined (trial r x0)) as Hu.
  { intros r x0. destruct Htrial as [-> | ->].
    - destruct (classical_trial_spec enc orig range r x0)
        as [dec [_ [Hl ->]]].
      apply corrcoef_short. rewrite Hl. exact Hs.
    - destruct (permutation_trial_spec enc orig range r x0)
        as [dec [_ [Hl ->]]].
      apply corrcoef_short. rewrite Hl. exact Hs. }
  split; [exact Hu|].
  now apply attack_all_undefined.
Qed.

Lemma attack_without_correlation_witness :
  Forall (fun run : attack_run =>
            let res := fst (fst (fst run)) in
            (forall r x0, undefined (snd (fst (fst run)) r x0)) /\
            res_success res = false /\ res_best_match res = 0 /\
            res_best_params res = None)
         (attack_runs [198; 163; 217]%Z [1; 2] (1, 5)
                      (fun _ => Raises ValueError) 600).
Proof.
  apply (attack_without_correlation [198; 163; 217]%Z [1; 2] (1, 5)
                                    (fun _ => Raises ValueError) 600).
  right. simpl. lia.
Defined.

(** ** The summary of a batch *)

Lemma sum_bounds (a b : Q) (l : list Q) :
  Forall (fun q => a <= q <= b) l ->
  forall acc, acc + Np.len l * a <= fold_left Qplus l acc /\
              fold_left Qplus l acc <= acc + Np.len l * b.
Proof.
  unfold Np.len.
  induction 1 as [|x l Hx Hl IH]; intros acc.
  - simpl. change (inject_Z 0) with 0. lra.
  - cbn [fold_left length]. destruct (IH (acc + x)) as [H1 H2].
    rewrite Nat2Z.inj_succ, <- Z.add_1_r, inject_Z_plus.
    change (inject_Z 1) with 1.
    set (n := inject_Z (Z.of_nat (length l))) in *.
    destruct Hx as [Hxa Hxb].
    split; [|]; [eapply Qle_trans; [|exact H1]|eapply Qle_trans; [exact H2|]];
      lra.
Qed.

Lemma mean_bounds (a b : Q) (l : list Q) :
  l <> [] -> Forall (fun q => a <= q <= b) l -> a <= Np.mean l <= b.
Proof.
  intros Hne Hl. unfold Np.mean, Np.sum.
  destruct (sum_bounds a b l Hl 0) as [H1 H2].
  pose proof (len_pos l Hne) as Hpos.
  split.
  - apply Qle_shift_div_l; [exact Hpos|]. lra.
  - apply Qle_shift_div_r; [exact Hpos|]. lra.
Qed.

Lemma classical_failed_default `{Np.Libm} (enc : list Z) (orig : list Q)
    (range : Q * Q) :
  length enc = length orig ->
  res_success (brute_force_attack_classical enc orig range 200) = false ->
  res_success_rate (brute_force_attack_classical enc orig range 200) = 1.
Proof.
  intros Hlen Hfail. unfold brute_force_attack_classical in *.
  set (trial := classical_trial enc orig range) in *.
  set (rr := Np.linspace 3.5 4.0 20) in *.
  set (xr := Np.linspace 0.1 0.9 10) in *.
  assert (Z.of_nat (length (list_prod rr xr)) = 200%Z) as Hg
    by (unfold rr, xr; now rewrite length_prod, !linspace_length).
  assert (res_attempts (attack trial 0.7 rr xr 200) <= 200)%Z as Hbud.
  { apply attack_budget; [|lia]. intros r x0 e.
    apply (trials_do_not_raise enc orig range Hlen). }
  destruct (attack_report trial 0.7 rr xr 200)
    as [st [rest [Hs [Ha [_ [_ [Hrate [Hgrid [Ht Hstop]]]]]]]]].
  pose proof (tally_attempts _ _ _ _ Ht) as Hatt.
  assert (length (list_prod rr xr)
          = Nat.add (length (tried (attack trial 0.7 rr xr 200, trial, 0.7,
                                    list_prod rr xr)))
                    (length rest)) as Hlg
    by (rewrite Hgrid at 1; apply length_app).
  rewrite Hrate.
  destruct (Z.ltb_spec (attempts st) (Z.of_nat (length (list_prod rr xr))))
    as [Hlt|Hge]; [|reflexivity].
  exfalso. destruct Hstop as [E|[Es|Hb]].
  - rewrite E in Hlg. cbn [length] in Hlg. lia.
  - congruence.
  - lia.
Qed.

(** X14.  The summary of a batch.  For a non-empty column of success rates
    in (0, 1] (every attack returns one), the mean is in (0, 1], the
    security score [1 - mean] in [0, 1), and the verdict is 'VULNERABLE'
    exactly when the mean is above 0.1, 'SECURE' otherwise; a column of
    ones gives mean 1, score 0 and 'VULNERABLE'. *)
Theorem summary_verdict (success_rates : list Q) :
  success_rates <> [] -> Forall (fun q => 0 < q <= 1) success_rates ->
  let rate := fst (fst (summary success_rates)) in
  let score := snd (fst (summary success_rates)) in
  let verdict := snd (summary success_rates) in
  0 < rate <= 1 /\ 0 <= score < 1 /\ score == 1 - rate /\
  (verdict = "VULNERABLE"%string <-> 0.1 < rate) /\
  (verdict = "SECURE"%string <-> rate <= 0.1) /\
  (Forall (fun q => q == 1) success_rates ->
   rate == 1 /\ score == 0 /\ verdict = "VULNERABLE"%string).
Proof.
  intros Hne Hall. unfold summary. cbn [fst snd]. cbv zeta.
  set (rate := Np.mean success_rates).
  assert (0 < rate <= 1) as [Hr0 Hr1].
  { assert (exists m, 0 < m /\ Forall (fun q => m <= q <= 1) success_rates)
      as [m [Hm Hl]].
    { clear Hne rate. induction Hall as [|x l [Hx0 Hx1] Hl IH].
      - exists 1. split; [lra|constructor].
      - destruct IH as [m [Hm Hlm]]. exists (Qmin m x). split.
        + apply Q.min_glb_lt; assumption.
        + constructor.
          * split; [apply Q.le_min_r|exact Hx1].
          * eapply Forall_impl; [|exact Hlm]. cbv beta. intros q [Hq0 Hq1].
            split; [|exact Hq1].
            eapply Qle_trans; [apply Q.le_min_l|exact Hq0]. }
    destruct (mean_bounds m 1 success_rates Hne Hl) as [H1 H2].
    fold rate in H1, H2. split; lra. }
  assert (forall (b : bool) (s1 s2 s : String.string),
             s1 <> s2 ->
             ((if b then s1 else s2) = s1 <-> b = true) /\
             ((if b then s1 else s2) = s2 <-> b = false)) as Hif.
  { intros [|] s1 s2 s Hd; repeat split; try congruence; auto;
      intros E; exfalso; apply Hd; congruence. }
  destruct (Hif (Qgtb rate 0.1) "VULNERABLE"%string "SECURE"%string
                "VULNERABLE"%string ltac:(discriminate)) as [Hv Hs].
  split; [split; assumption|]. split; [lra|]. split; [reflexivity|].
  split; [rewrite Hv; apply Qgtb_true|].
  split; [rewrite Hs; apply Qgtb_false|].
  intros Hones.
  assert (rate == 1) as E by (apply mean_constant; assumption).
  split; [exact E|]. split; [rewrite E; ring|].
  apply Hv, Qgtb_true. rewrite E. reflexivity.
Qed.

Lemma summary_verdict_witness :
  0 < fst (fst (summary [1; 1; 0.005])) <= 1.
Proof.
  apply (summary_verdict [1; 1; 0.005]).
  - discriminate.
  - repeat constructor; lra.
Defined.

(** X15.  A batch on which the classical attack, with its default budget
    of 200, never succeeded is reported as broken: every success rate of
    the column is 1.0, so the summary has mean 1, security score 0 and the
    verdict 'VULNERABLE'. *)
Theorem summary_of_failed_attacks `{Np.Libm}
    (batch : list (list Z * list Q * (Q * Q))) :
  batch <> [] ->
  Forall (fun item : list Z * list Q * (Q * Q) =>
            let '(enc, orig, range) := item in
            length enc = length orig /\
            res_success (brute_force_attack_classical enc orig range 200)
            = false) batch ->
  let column :=
    map (fun item : list Z * list Q * (Q * Q) =>
           let '(enc, orig, range) := item in
           res_success_rate (brute_force_attack_classical enc orig range 200))
        batch in
  Forall (fun q => q = 1) column /\
  fst (fst (summary column)) == 1 /\
  snd (fst (summary column)) == 0 /\
  snd (summary column) = "VULNERABLE"%string.
Proof.
  intros Hne Hall column.
  assert (Forall (fun q => q = 1) column) as Hones.
  { unfold column. apply Forall_forall. intros q Hq.
    apply in_map_iff in Hq. destruct Hq as [[[enc orig] range] [<- Hin]].
    rewrite Forall_forall in Hall. destruct (Hall _ Hin) as [Hlen Hfail].
    now apply classical_failed_default. }
  assert (column <> []) as Hcne
    by (unfold column; destruct batch; [congruence|discriminate]).
  assert (Np.mean column == 1) as E.
  { apply mean_constant; [exact Hcne|].
    eapply Forall_impl; [|exact Hones]. cbv beta. intros q ->. reflexivity. }
  split; [exact Hones|].
  unfold summary. cbn [fst snd].
  split; [exact E|]. split; [rewrite E; ring|].
  assert (Qgtb (Np.mean column) 0.1 = true) as ->; [|reflexivity].
  apply Qgtb_true. rewrite E. reflexivity.
Qed.

Lemma summary_of_failed_attacks_witness :
  snd (summary
         (map (fun item : list Z * list Q * (Q * Q) =>
                 let '(enc, orig, range) := item in
                 res_success_rate
                   (brute_force_attack_classical enc orig range 200))
              [([198; 163; 217]%Z, [5; 5; 5], (5, 5))]))
  = "VULNERABLE"%string.
Proof.
  apply (summary_of_failed_attacks [([198; 163; 217]%Z, [5; 5; 5], (5, 5))]).
  - discriminate.
  - constructor; [|constructor].
    split; [reflexivity|vm_compute; reflexivity].
Defined.

(** ** The keystream and the length of the signal *)

Lemma logistic_map_app (r : Q) (n m : nat) :
  forall x0, exists x,
    logistic_map x0 r (n + m) = logistic_map x0 r n ++ logistic_map x r m.
Proof.
  induction n as [|n IH]; intros x0; [now exists x0|].
  cbn [Nat.add logistic_map]. cbv zeta.
  destruct (IH (r * x0 * (1 - x0))) as [x ->].
  now exists x.
Qed.

(** X19.  The keystream of a key does not depend on the length of the
    signal: the chaotic sequence and the XOR mask made for [n] samples are
    the first [n] entries of those made for [n + m] samples. *)
Theorem keystream_prefix (x0 r : Q) (n m : nat) :
  firstn n (logistic_map x0 r (n + m)) = logistic_map x0 r n /\
  firstn n (Gui.logistic_map x0 r (n + m)) = Gui.logistic_map x0 r n /\
  firstn n (xor_mask (logistic_map x0 r (n + m)))
  = xor_mask (logistic_map x0 r n).
Proof.
  assert (firstn n (logistic_map x0 r (n + m)) = logistic_map x0 r n) as E.
  { destruct (logistic_map_app r n m x0) as [x ->].
    rewrite <- (logistic_map_length x0 r n) at 1.
    rewrite firstn_app, Nat.sub_diag, firstn_all. simpl. apply app_nil_r. }
  split; [exact E|]. split.
  - now rewrite !gui_logistic_map_eq.
  - unfold xor_mask. now rewrite firstn_map, E.
Qed.

(** ** The peaks of a signal *)

Lemma StronglySorted_filter {A} (R : A -> A -> Prop) (f : A -> bool)
    (l : list A) :
  StronglySorted R l -> StronglySorted R (filter f l).
Proof.
  induction 1 as [|x l Hs IH Hx]; simpl; [constructor|].
  destruct (f x); [|exact IH].
  constructor; [exact IH|].
  rewrite Forall_forall in *. intros y Hy. apply filter_In in Hy.
  apply Hx, Hy.
Qed.

Lemma seq_sorted_lt (len start : nat) : StronglySorted lt (seq start len).
Proof.
  revert start. induction len as [|len IH]; intros start; simpl; constructor.
  - apply IH.
  - apply Forall_forall. intros x Hx. apply in_seq in Hx. lia.
Qed.

(** Increasing indices, no two of them neighbours, all in [a, b). *)
Lemma spaced_count (l : list nat) :
  forall a b,
    StronglySorted lt l -> (forall i, In i l -> ~ In (S i) l) ->
    Forall (fun i => (a <= i < b)%nat) l -> l <> [] ->
    (2 * length l + a <= b + 1)%nat.
Proof.
  induction l as [|x l IH]; intros a b Hs Hadj Hr Hne; [congruence|].
  inversion Hs as [|? ? Hs' Hx]; subst.
  inversion Hr as [|? ? Hxr Hr']; subst.
  destruct l as [|y l]; [simpl; lia|].
  assert (2 * length (y :: l) + (x + 2) <= b + 1)%nat as Hrec.
  { apply IH.
    - exact Hs'.
    - intros i Hi. intros Hsi. apply (Hadj i); now right.
    - rewrite Forall_forall in *. intros i Hi.
      specialize (Hx i Hi). specialize (Hr' i Hi).
      assert (i <> S x) as Hn.
      { intros ->. apply (Hadj x); [now left|now right]. }
      lia.
    - discriminate. }
  cbn [length] in *. lia.
Qed.

(** X20.  [find_peaks] returns exactly the interior indices whose sample is
    above both neighbours and above the threshold, in increasing order; no
    two returned indices are neighbours, so a signal of [n] samples has at
    most [(n - 1) / 2] peaks, and a signal of fewer than three samples has
    none.  The [peak_count] feature is the number of these indices for the
    default threshold 0.5. *)
Theorem find_peaks_spec (signal : list Q) (threshold : Q) :
  let peaks := Gui.find_peaks signal threshold in
  (forall i, In i peaks <->
             (1 <= i)%nat /\ (i + 1 < length signal)%nat /\
             nth (i - 1) signal 0 < nth i signal 0 /\
             nth (i + 1) signal 0 < nth i signal 0 /\
             threshold < nth i signal 0) /\
  StronglySorted lt peaks /\
  (forall i, In i peaks -> ~ In (S i) peaks) /\
  (2 * length peaks <= length signal - 1)%nat /\
  ((length signal < 3)%nat -> peaks = []) /\
  (threshold = 0.5 -> Gui.peak_count signal = length peaks).
Proof.
  intros peaks.
  assert (forall i, In i peaks <->
             (1 <= i)%nat /\ (i + 1 < length signal)%nat /\
             nth (i - 1) signal 0 < nth i signal 0 /\
             nth (i + 1) signal 0 < nth i signal 0 /\
             threshold < nth i signal 0) as Hin.
  { intros i. unfold peaks, Gui.find_peaks.
    rewrite filter_In, in_seq, !andb_true_iff, !Qgtb_true.
    split.
    - intros [Hr [[H1 H2] H3]]. repeat split; try assumption; lia.
    - intros [H0 [Hn [H1 [H2 H3]]]]. repeat split; try assumption; lia. }
  assert (StronglySorted lt peaks) as Hsorted
    by (apply StronglySorted_filter, seq_sorted_lt).
  assert (forall i, In i peaks -> ~ In (S i) peaks) as Hadj.
  { intros i Hi Hsi.
    apply Hin in Hi. apply Hin in Hsi.
    destruct Hi as [_ [_ [_ [Hi _]]]].
    destruct Hsi as [_ [_ [Hsi _]]].
    replace (S i - 1)%nat with i in Hsi by lia.
    replace (i + 1)%nat with (S i) in Hi by lia.
    lra. }
  split; [exact Hin|]. split; [exact Hsorted|]. split; [exact Hadj|].
  split.
  - destruct peaks as [|p ps] eqn:E; [simpl; lia|].
    assert (2 * length (p :: ps) + 1 <= (length signal - 1) + 1)%nat.
    { apply spaced_count; try assumption; [|discriminate].
      apply Forall_forall. intros i Hi. apply Hin in Hi. lia. }
    lia.
  - split.
    + intros Hshort. destruct peaks as [|p ps] eqn:E; [reflexivity|].
      assert (In p (p :: ps)) as Hp by now left.
      apply Hin in Hp. lia.
    + intros Ht. unfold Gui.peak_count, peaks. now rewrite Ht.
Qed.

Lemma find_peaks_spec_witness : Gui.find_peaks [1; 2] 0.5 = [].
Proof.
  apply (find_peaks_spec [1; 2] 0.5). simpl. lia.
Defined.

(** ** The grid of the attacks *)

Lemma linspace_bounds (start stop : Q) (num : nat) :
  start <= stop ->
  Forall (fun v => start <= v <= stop) (Np.linspace start stop num).
Proof.
  intros Hle. unfold Np.linspace.
  apply Forall_forall. intros v Hv.
  apply in_map_iff in Hv. destruct Hv as [i [<- Hi]].
  apply in_seq in Hi.
  set (n := inject_Z (Z.of_nat (num - 1))).
  set (k := inject_Z (Z.of_nat i)).
  assert (0 <= k <= n) as [Hk0 Hkn].
  { unfold k, n. change 0 with (inject_Z 0). rewrite <- !Zle_Qle. lia. }
  destruct (Qlt_le_dec 0 n) as [Hn|Hn].
  - assert (0 <= (stop - start) / n) as Hs
      by (apply Qle_shift_div_l; lra).
    assert (k * ((stop - start) / n) <= n * ((stop - start) / n)) as Hup
      by (apply Qmult_le_compat_r; assumption).
    assert (n * ((stop - start) / n) == stop - start) as E by (field; lra).
    assert (0 <= k * ((stop - start) / n))
      by (apply Qmult_le_0_compat; assumption).
    lra.
  - assert (k == 0) as -> by lra. lra.
Qed.

(** X21.  Every key an attack tries lies in the key domain, in the box
    3.5 <= r <= 4.0, 0.1 <= x0 <= 0.9, and the key derived from a non-empty
    signal of moderate samples lies in that same box: the searches cover
    the range of the derived keys. *)
Theorem attack_grid_in_domain `{Np.Libm} (enc : list Z) (orig : list Q)
    (range : Q * Q) (model : predictor) (max_attempts : Z) (signal : list Q) :
  signal <> [] -> moderate signal ->
  Forall (fun run : attack_run =>
            Forall (fun p : Q * Q =>
                      3.5 <= fst p <= 4.0 /\ 0.1 <= snd p <= 0.9 /\
                      key_domain (fst p) (snd p))
                   (snd run))
         (attack_runs enc orig range model max_attempts) /\
  3.5 <= fst (extract_biometric_key signal) <= 4.0 /\
  0.1 <= snd (extract_biometric_key signal) <= 0.9.
Proof.
  intros _ _. split.
  - assert (forall n m,
               Forall (fun p : Q * Q =>
                         3.5 <= fst p <= 4.0 /\ 0.1 <= snd p <= 0.9 /\
                         key_domain (fst p) (snd p))
                      (list_prod (Np.linspace 3.5 4.0 n) (Np.linspace 0.1 0.9 m)))
      as Hgrid.
    { intros n m. apply Forall_forall. intros [r x0] Hp.
      apply in_prod_iff in Hp. destruct Hp as [Hr Hx].
      pose proof (linspace_bounds 3.5 4.0 n ltac:(lra)) as Hrb.
      pose proof (linspace_bounds 0.1 0.9 m ltac:(lra)) as Hxb.
      rewrite Forall_forall in Hrb, Hxb.
      specialize (Hrb r Hr). specialize (Hxb x0 Hx).
      cbn [fst snd]. unfold key_domain. cbv beta in Hrb, Hxb.
      destruct Hrb, Hxb. repeat split; lra. }
    unfold attack_runs.
    constructor; [cbn [snd]; apply Hgrid|].
    constructor; [cbn [snd]; apply Hgrid|].
    constructor; [cbn [snd]; apply Hgrid|constructor].
  - unfold extract_biometric_key. cbn [fst snd].
    destruct (pymod_spec (Np.std signal) 0.4) as [[Hs0 Hs1] _]; [lra|].
    destruct (pymod_spec (Np.mean signal) 0.8) as [[Hm0 Hm1] _]; [lra|].
    lra.
Qed.

Lemma attack_grid_in_domain_witness :
  3.5 <= fst (extract_biometric_key [1; 2; 3; 4; 5]) <= 4.0 /\
  0.1 <= snd (extract_biometric_key [1; 2; 3; 4; 5]) <= 0.9.
Proof.
  apply (attack_grid_in_domain [198; 163; 217]%Z [1; 2; 3] (1, 3)
                               (fun _ => Raises ValueError) 600
                               [1; 2; 3; 4; 5]).
  - discriminate.
  - unfold moderate.
    repeat (constructor; [vm_compute; discriminate|]). constructor.
Defined.
